(** * udp-over-tcp: SOCKS address codec, stream framing and datagram adapter

    A shallow embedding of [socks.go] and [uot.go].  Go's [int] is
    modelled by [Z] (the program computes with slice lengths and 16-bit
    values only, so the 64-bit wrap-around never arises), a [[]byte] by
    [list byte], run-time panics by an explicit outcome, and the
    [io.Reader] interface by a type class with one instance per
    implementation the program uses ([bytes.Reader] and the [net.Conn]
    embedded in [defaultConn]). *)

From Stdlib Require Import String ZArith List Bool Lia.
From Stdlib Require Import Strings.Byte DecimalString.
Import ListNotations.
Local Open Scope Z_scope.

Set Implicit Arguments.

(** ** Go values *)

(** [int(b)] for a byte [b]. *)
Definition int (b : byte) : Z := Z.of_N (Byte.to_N b).

(** [byte(z)] for an int [z]: the low eight bits. *)
Definition to_byte (z : Z) : byte :=
  match Byte.of_N (Z.to_N (z mod 256)) with
  | Some b => b
  | None => x00
  end.

(** [len(s)]. *)
Definition len {A : Type} (s : list A) : Z := Z.of_nat (length s).

(** ** Outcomes of a call

    A call returns its Go results, or panics, or (only inside
    [io.ReadAtLeast], whose loop has no bound of its own) stops being
    followed once the reader has answered [0, nil] so often that the loop
    budget is used up. *)
Inductive outcome (A : Type) : Type :=
| Ret (a : A)
| Panic (msg : string)
| Stall.

Arguments Ret {A} a.
Arguments Panic {A} msg%_string.
Arguments Stall {A}.

Definition bind {A B : Type} (m : outcome A) (k : A -> outcome B) : outcome B :=
  match m with
  | Ret a => k a
  | Panic msg => Panic msg
  | Stall => Stall
  end.

Declare Scope go_scope.
Delimit Scope go_scope with go.
Notation "x <- m ;; k" := (bind m (fun x => k))
  (at level 61, m at next level, right associativity) : go_scope.
Notation "' p <- m ;; k" := (bind m (fun p => k))
  (at level 61, p pattern, m at next level, right associativity) : go_scope.
Local Open Scope go_scope.

(** ** Slices

    The capacity of every slice this program slices beyond its length is
    its length ([make([]byte, n)] has capacity [n]), so one list stands for
    both. *)

(** [make([]byte, n)]. *)
Definition make (n : Z) : list byte := repeat x00 (Z.to_nat n).

(** [s[lo:hi]]; out of bounds is a run-time panic. *)
Definition slice (s : list byte) (lo hi : Z) : outcome (list byte) :=
  if (0 <=? lo) && (lo <=? hi) && (hi <=? len s)
  then Ret (firstn (Z.to_nat (hi - lo)) (skipn (Z.to_nat lo) s))
  else Panic "slice bounds out of range".

(** [s[i]]; out of range is a run-time panic. *)
Definition index (s : list byte) (i : Z) : outcome byte :=
  if (0 <=? i) && (i <? len s)
  then Ret (nth (Z.to_nat i) s x00)
  else Panic "index out of range".

(** The effect on [s] of writing the bytes [d] through the alias [s[lo:]]. *)
Definition store (s : list byte) (lo : Z) (d : list byte) : list byte :=
  firstn (Z.to_nat lo) s ++ d ++ skipn (Z.to_nat lo + length d) s.

(** The builtin [copy(dst, src)]: [min(len(dst), len(src))] bytes, taken
    from [src] as it was before the call (so overlapping ranges are fine);
    returns the new contents of [dst]. *)
Definition copy (dst src : list byte) : list byte :=
  firstn (length dst) src ++ skipn (length src) dst.

(** ** Errors *)
Inductive error : Type :=
| EOF                       (* io.EOF *)
| ErrUnexpectedEOF          (* io.ErrUnexpectedEOF *)
| ErrShortBuffer            (* io.ErrShortBuffer *)
| errorString (s : string)  (* errors.New(s) *)
| OpError (s : string).     (* an error of the transport *)

Arguments errorString s%_string.
Arguments OpError s%_string.

Definition is_EOF (e : option error) : bool :=
  match e with
  | Some EOF => true
  | _ => false
  end.

(** ** package io *)
Module io.

(** [Read(p)] with [len(p) = k]: the bytes stored in [p[:n]], the error,
    and the reader afterwards. *)
Class Reader (R : Type) := Read : R -> Z -> list byte * option error * R.

(** The loop of [io.ReadAtLeast]:
    [for n < min && err == nil { nn, err = r.Read(buf[n:]); n += nn }]. *)
Fixpoint ReadAtLeast_loop {R : Type} `{Reader R} (fuel : nat) (r : R)
    (lenbuf min : Z) (got : list byte) (err : option error)
    : outcome (list byte * option error * R) :=
  match err with
  | Some _ => Ret (got, err, r)
  | None =>
      if len got <? min then
        match fuel with
        | O => Stall
        | S fuel' =>
            let '(d, err', r') := Read r (lenbuf - len got) in
            ReadAtLeast_loop fuel' r' lenbuf min (got ++ d) err'
        end
      else Ret (got, err, r)
  end.

(** [io.ReadAtLeast(r, buf, min)] with [len(buf) = lenbuf].  A reader that
    returns a byte or an error on every call ends the loop within [min]
    rounds. *)
Definition ReadAtLeast {R : Type} `{Reader R} (r : R) (lenbuf min : Z)
    : outcome (list byte * option error * R) :=
  if lenbuf <? min then Ret ([], Some ErrShortBuffer, r) else
  '(got, err, r') <- ReadAtLeast_loop (Z.to_nat min) r lenbuf min [] None ;;
  let n := len got in
  if n >=? min then Ret (got, None, r')
  else if (n >? 0) && is_EOF err then Ret (got, Some ErrUnexpectedEOF, r')
  else Ret (got, err, r').

(** [io.ReadFull(r, buf)] at the level of the bytes read. *)
Definition ReadFull_bytes {R : Type} `{Reader R} (r : R) (k : Z)
    : outcome (list byte * option error * R) :=
  ReadAtLeast r k k.

(** [io.ReadFull(r, buf[lo:hi])]: the slice expression may panic; the
    bytes read land in [buf] at offset [lo], also when the read comes up
    short.  Returns [nn], [err], the reader and the buffer afterwards. *)
Definition ReadFull {R : Type} `{Reader R} (r : R) (buf : list byte)
    (lo hi : Z) : outcome (Z * option error * R * list byte) :=
  _ <- slice buf lo hi ;;
  '(d, err, r') <- ReadFull_bytes r (hi - lo) ;;
  Ret (len d, err, r', store buf lo d).

End io.

(** ** package bytes *)
Module bytes.

(** [bytes.Reader]: the slice read from and the current index (an
    [int64] that starts at 0 and only grows). *)
Record Reader : Type := { s : list byte; i : nat }.

Definition NewReader (b : list byte) : Reader := {| s := b; i := 0%nat |}.

(** The method [Read] of [bytes.Reader]. *)
Definition Read (r : Reader) (k : Z) : list byte * option error * Reader :=
  if Z.of_nat (i r) >=? len (s r) then ([], Some EOF, r)
  else
    let d := firstn (Z.to_nat k) (skipn (i r) (s r)) in
    (d, None, {| s := s r; i := i r + length d |}).

#[global] Instance Reader_io : io.Reader Reader := Read.

End bytes.

(** [type SocksAddr []byte] of socks.go, declared here because it is one
    of the dynamic types of a [net.Addr]. *)
Definition SocksAddr : Type := list byte.

(** ** package net: the two transports, as the program uses them *)
Module net.

(** A [net.Addr] interface value: nil, a [SocksAddr], or an address of
    the transport's own (a [*net.UDPAddr], say) shown as text. *)
Inductive Addr : Type :=
| nilAddr
| Socks (a : SocksAddr)
| Peer (hostport : string).

Arguments Peer hostport%_string.

(** A stream connection seen from one end: the segments still to arrive
    (a segment is what one [Read] can hand over at most), the error that
    ends the inbound stream ([io.EOF] after an orderly close), the
    arguments of the [Write] calls made so far, and the error, if any,
    that [Write] reports. *)
Record Conn : Type := {
  inbound : list (list byte);
  rerr : error;
  outbound : list (list byte);
  werr : option error
}.

(** What a blocking [Read] of up to [k] bytes takes from the segments:
    it waits until a byte has arrived, so empty segments are passed over;
    [None] when the stream has ended. *)
Fixpoint recv (segs : list (list byte)) (k : Z)
    : option (list byte * list (list byte)) :=
  match segs with
  | [] => None
  | seg :: rest =>
      match seg with
      | [] => recv rest k
      | _ :: _ =>
          Some (firstn (Z.to_nat k) seg,
                if len seg <=? k then rest
                else skipn (Z.to_nat k) seg :: rest)
      end
  end.

Definition Read (c : Conn) (k : Z) : list byte * option error * Conn :=
  match recv (inbound c) k with
  | None =>
      ([], Some (rerr c),
       {| inbound := []; rerr := rerr c;
          outbound := outbound c; werr := werr c |})
  | Some (d, segs) =>
      (d, None,
       {| inbound := segs; rerr := rerr c;
          outbound := outbound c; werr := werr c |})
  end.

#[global] Instance Conn_Reader : io.Reader Conn := Read.

(** [Write(b)]: all of [b] or, on a failing transport, nothing. *)
Definition Write (c : Conn) (b : list byte) : Z * option error * Conn :=
  match werr c with
  | Some e => (0, Some e, c)
  | None =>
      (len b, None,
       {| inbound := inbound c; rerr := rerr c;
          outbound := outbound c ++ [b]; werr := werr c |})
  end.

(** A datagram socket: the datagrams still to be received with their
    senders, the error [ReadFrom] reports once none is left, and the
    datagrams sent so far with their destinations. *)
Record PacketConn : Type := {
  pending : list (list byte * Addr);
  perr : error;
  sent : list (list byte * Addr)
}.

(** [ReadFrom(p)]: one datagram is copied into [p]; what does not fit is
    dropped. *)
Definition ReadFrom (c : PacketConn) (p : list byte)
    : Z * Addr * option error * PacketConn * list byte :=
  match pending c with
  | [] => (0, nilAddr, Some (perr c), c, p)
  | (d, from) :: rest =>
      (Z.min (len p) (len d), from, None,
       {| pending := rest; perr := perr c; sent := sent c |},
       copy p d)
  end.

(** [WriteTo(p, addr)]. *)
Definition WriteTo (c : PacketConn) (p : list byte) (addr : Addr)
    : Z * option error * PacketConn :=
  (len p, None,
   {| pending := pending c; perr := perr c; sent := sent c ++ [(p, addr)] |}).

End net.

(** ** socks.go *)

Definition maxAddrLen : Z := 1 + 1 + 255.

Definition atypIPv4 : byte := x01.
Definition atypDomainName : byte := x03.
Definition atypIPv6 : byte := x04.

(** [ReadSocksAddr(r)].  The [switch buf[0]] either returns from inside
    its domain-name case ([inl]) or falls through to the statements after
    it with [nn], [err], [n], the reader and the buffer ([inr]).  The case
    labels [x03], [x01] and [x04] are [atypDomainName], [atypIPv4] and
    [atypIPv6].  A [nil] address is [None]. *)
Definition ReadSocksAddr {R : Type} `{io.Reader R} (r : R)
    : outcome (option SocksAddr * option error * R) :=
  let buf := make maxAddrLen in
  let n := 0 in
  '(nn, err, r, buf) <- io.ReadFull r buf 0 1 ;;
  match err with
  | Some e => Ret (None, Some e, r)
  | None =>
  let n := n + nn in
  b0 <- index buf 0 ;;
  sw <- (match b0 with
         | x03 =>
             '(nn, err, r, buf) <- io.ReadFull r buf 1 2 ;;
             match err with
             | Some e => Ret (inl (None, Some e, r))
             | None =>
                 let n := n + nn in
                 b1 <- index buf 1 ;;
                 '(nn, err, r, buf) <- io.ReadFull r buf 2 (2 + int b1) ;;
                 Ret (inr (nn, err, n, r, buf))
             end
         | x01 =>
             '(nn, err, r, buf) <- io.ReadFull r buf 1 (1 + 4) ;;
             Ret (inr (nn, err, n, r, buf))
         | x04 =>
             '(nn, err, r, buf) <- io.ReadFull r buf 1 (1 + 16) ;;
             Ret (inr (nn, err, n, r, buf))
         | _ =>
             Ret (inr (nn, Some (errorString "error socks address"), n, r, buf))
         end) ;;
  match sw with
  | inl early => Ret early
  | inr (nn, err, n, r, buf) =>
      match err with
      | Some e => Ret (None, Some e, r)
      | None =>
          let n := n + nn in
          '(nn, err, r, buf) <- io.ReadFull r buf n (n + 2) ;;
          let n := n + nn in
          a <- slice buf 0 n ;;
          Ret (Some a, None, r)
      end
  end
  end.


(** [len(a)] and [a[lo:hi]] treat a nil slice as an empty one. *)
Definition bytes_of (a : option SocksAddr) : list byte :=
  match a with
  | Some a => a
  | None => []
  end.

(** ** uot.go *)

Definition MaxPacketSize : Z := 65535.

Record defaultConn : Type := {
  Conn : net.Conn;
  isClient : bool
}.

Record defaultPacketConn : Type := {
  PacketConn : net.PacketConn
}.

Definition DefaultOutConn (conn : net.Conn) : defaultConn :=
  {| Conn := conn; isClient := true |}.

Definition DefaultInConn (conn : net.Conn) : defaultConn :=
  {| Conn := conn; isClient := false |}.

Definition DefaultPacketConn (conn : net.PacketConn) : defaultPacketConn :=
  {| PacketConn := conn |}.

(** The connection [c] after a call on its embedded [net.Conn]. *)
Definition with_Conn (c : defaultConn) (conn : net.Conn) : defaultConn :=
  {| Conn := conn; isClient := isClient c |}.

(** [(c *defaultPacketConn) ReadPacket(p)]: the results [n], [target],
    [addr], [err], then the socket and the caller's buffer afterwards. *)
Definition defaultPacketConn_ReadPacket (c : defaultPacketConn) (p : list byte)
    : outcome (Z * net.Addr * net.Addr * option error
               * defaultPacketConn * list byte) :=
  let '(n, addr, err, pc, p) := net.ReadFrom (PacketConn c) p in
  let c := {| PacketConn := pc |} in
  match err with
  | Some e => Ret (0, net.nilAddr, net.nilAddr, Some e, c, p)
  | None =>
      pn <- slice p 0 n ;;
      '(target, err, _) <- ReadSocksAddr (bytes.NewReader pn) ;;
      match err with
      | Some e => Ret (0, net.nilAddr, net.nilAddr, Some e, c, p)
      | None =>
          let length := len (bytes_of target) in
          src <- slice p length n ;;
          let p := copy p src in
          Ret (n - length, net.Socks (bytes_of target), addr, None, c, p)
      end
  end.

(** [(c *defaultPacketConn) WritePacket(p, target, addr)]. *)
Definition defaultPacketConn_WritePacket (c : defaultPacketConn)
    (p : list byte) (target addr : net.Addr)
    : Z * option error * defaultPacketConn :=
  let '(n, err, pc) := net.WriteTo (PacketConn c) p addr in
  (n, err, {| PacketConn := pc |}).

(** [(c *defaultConn) Handshake(addr)].  On the server side the
    [(SocksAddr, error)] of [ReadSocksAddr] is returned as
    [(net.Addr, error)]: a nil [SocksAddr] becomes a [net.Addr] that holds
    the nil slice. *)
Definition defaultConn_Handshake (c : defaultConn) (addr : net.Addr)
    : outcome (net.Addr * option error * defaultConn) :=
  if isClient c then
    match addr with
    | net.Socks target =>
        let '(_, err, conn) := net.Write (Conn c) target in
        match err with
        | Some e => Ret (net.nilAddr, Some e, with_Conn c conn)
        | None => Ret (addr, None, with_Conn c conn)
        end
    | _ => Ret (net.nilAddr, Some (errorString "not a socks address"), c)
    end
  else
    '(a, err, conn) <- ReadSocksAddr (Conn c) ;;
    Ret (net.Socks (bytes_of a), err, with_Conn c conn).

(** [(c *defaultConn) Read(b)]: the results [n] and [err], then the
    connection and the caller's buffer afterwards. *)
Definition defaultConn_Read (c : defaultConn) (b : list byte)
    : outcome (Z * option error * defaultConn * list byte) :=
  if len b <? 2 then Ret (0, Some ErrShortBuffer, c, b) else
  '(_, err, conn, b) <- io.ReadFull (Conn c) b 0 2 ;;
  let c := with_Conn c conn in
  match err with
  | Some e => Ret (0, Some e, c, b)
  | None =>
      b0 <- index b 0 ;;
      b1 <- index b 1 ;;
      let n := Z.lor (Z.shiftl (int b0) 8) (int b1) in
      if len b <? n then Ret (0, Some ErrShortBuffer, c, b) else
      '(nn, err, conn, b) <- io.ReadFull (Conn c) b 0 n ;;
      Ret (nn, err, with_Conn c conn, b)
  end.

(** [(c *defaultConn) Write(b)]. *)
Definition defaultConn_Write (c : defaultConn) (b : list byte)
    : Z * option error * defaultConn :=
  let n := len b in
  if n >? MaxPacketSize - 2 then
    (0, Some (errorString "over max packet size"), c)
  else
    let '(_, err, conn) :=
      net.Write (Conn c) [to_byte (Z.shiftr n 8); to_byte (Z.land n 255)] in
    let c := with_Conn c conn in
    match err with
    | Some e => (0, Some e, c)
    | None =>
        let '(nn, err, conn) := net.Write (Conn c) b in
        (nn, err, with_Conn c conn)
    end.

(** The receiving end of a connection whose peer has made the writes
    logged in [w]: every write arrives as one segment. *)
Definition peer_of (w : net.Conn) : net.Conn :=
  {| net.inbound := net.outbound w; net.rerr := EOF;
     net.outbound := []; net.werr := None |}.

(** A connection on which nothing has happened yet. *)
Definition fresh : net.Conn :=
  {| net.inbound := []; net.rerr := EOF; net.outbound := []; net.werr := None |}.

(** ** Sample values *)

(** IPv4 10.0.0.1, port 53. *)
Definition addr_10_0_0_1_53 : SocksAddr :=
  [x01; x0a; x00; x00; x01; x00; x35].

(** Domain name "foo", port 80. *)
Definition addr_foo_80 : SocksAddr :=
  [x03; x03; x66; x6f; x6f; x00; x50].

(** A domain name of 255 letters "a", port 80. *)
Definition addr_a255_80 : SocksAddr :=
  x03 :: xff :: repeat x61 255 ++ [x00; x50].

(** A socket with one datagram waiting. *)
Definition socket_with (d : list byte) : net.PacketConn :=
  {| net.pending := [(d, net.Peer "192.0.2.7:4000")];
     net.perr := OpError "i/o timeout";
     net.sent := [] |}.

(** ** Byte streams

    What [ReadSocksAddr] and [defaultConn] need from a reader: it hands
    over the bytes of one sequence, in order, at least one per call while
    any is left, and then reports its final error.  [unread] is that
    sequence and [endErr] that error. *)
Class Stream (R : Type) `{io.Reader R} : Type := {
  unread : R -> list byte;
  endErr : R -> error;
  Read_stream : forall (r : R) (k : Z), 0 < k ->
    match io.Read r k with
    | (d, err, r') =>
        endErr r' = endErr r /\
        match unread r with
        | [] => d = [] /\ err = Some (endErr r) /\ unread r' = []
        | _ :: _ =>
            d <> [] /\ len d <= k /\ err = None /\ unread r = d ++ unread r'
        end
    end
}.

Arguments Stream R {_}.

(** The error of an [io.ReadFull] that got only the bytes [d] before the
    reader failed with [e]. *)
Definition short_err (e : error) (d : list byte) : error :=
  match d, e with
  | _ :: _, EOF => ErrUnexpectedEOF
  | _, _ => e
  end.

(** ** The wire format of an address, from RFC 1928 as the program reads it *)

(** Where the host field ends, as the one or two header bytes at the
    front of [bs] announce it. *)
Definition host_end (bs : list byte) : option Z :=
  match bs with
  | x01 :: _ => Some (1 + 4)
  | x04 :: _ => Some (1 + 16)
  | x03 :: l :: _ => Some (2 + int l)
  | _ => None
  end.

(** A complete serialized address: header, host and both port bytes. *)
Definition is_addr (a : list byte) : Prop :=
  exists h, host_end a = Some h /\ len a = h + 2.

(** ** Rendering an address (socks.go)

    A Go [string] is a sequence of bytes. *)
Definition gostring : Type := list byte.

(** [strconv.Itoa]. *)
Definition Itoa (z : Z) : gostring :=
  list_byte_of_string (NilZero.string_of_int (Z.to_int z)).

(** [net.JoinHostPort]: a host that contains a colon is put in brackets. *)
Definition JoinHostPort (host port : gostring) : gostring :=
  if existsb (Byte.eqb ":") host
  then ["["%byte] ++ host ++ ["]"%byte; ":"%byte] ++ port
  else host ++ [":"%byte] ++ port.

(** [(addr SocksAddr) Network()]. *)
Definition SocksAddr_Network (addr : SocksAddr) : gostring :=
  list_byte_of_string "udp".

Section Rendering.

(** [net.IP(b).String()], the textual form of an IP address: a function of
    the standard library that [String] only passes bytes to. *)
Variable IP_String : list byte -> gostring.

(** [(addr SocksAddr) String()].  The bounds of the slice expressions are
    checked against [len(addr)]; Go checks their upper bound against
    [cap(addr)], which is no smaller, so a result here is the result
    there. *)
Definition SocksAddr_String (addr : SocksAddr) : outcome gostring :=
  a0 <- index addr 0 ;;
  host <- (match a0 with
           | x03 =>
               a1 <- index addr 1 ;;
               slice addr 2 (2 + int a1)
           | x01 =>
               ip <- slice addr 1 (1 + 4) ;;
               Ret (IP_String ip)
           | x04 =>
               ip <- slice addr 1 (1 + 16) ;;
               Ret (IP_String ip)
           | _ => Panic "error socks address"
           end) ;;
  buf <- slice addr (len addr - 2) (len addr) ;;
  b0 <- index buf 0 ;;
  b1 <- index buf 1 ;;
  let port := Itoa (Z.lor (Z.shiftl (int b0) 8) (int b1)) in
  Ret (JoinHostPort host port).

End Rendering.

(** ** What a caller can see of a reader after a call *)

(** The results of a call on a byte stream, with the reader replaced by
    the bytes it has left and its final error. *)
Definition observe {R : Type} `{Stream R} {A : Type} (o : outcome (A * R))
    : outcome (A * list byte * error) :=
  '(a, r) <- o ;;
  Ret (a, unread r, endErr r).

(** ** [ReadSocksAddr] as a function of the bytes

    What [ReadSocksAddr] makes of a stream that holds the bytes [bs] and
    then fails with [e]: the address, the error, the bytes left and the
    final error.  [after_host] is the part that follows the header [hdr]
    of a host of [hlen] bytes. *)
Definition after_host (e : error) (hdr : list byte) (hlen : Z)
    (rest : list byte)
    : outcome (option SocksAddr * option error * list byte * error) :=
  if len rest <? hlen then Ret (None, Some (short_err e rest), [], e)
  else if len hdr + hlen + 2 <=? maxAddrLen then
    Ret (Some (hdr ++ firstn (Z.to_nat (hlen + 2)) rest), None,
         skipn (Z.to_nat (hlen + 2)) rest, e)
  else Panic "slice bounds out of range".

Definition parse_bytes (e : error) (bs : list byte)
    : outcome (option SocksAddr * option error * list byte * error) :=
  match bs with
  | [] => Ret (None, Some e, [], e)
  | t :: rest =>
      match t with
      | x01 => after_host e [x01] 4 rest
      | x04 => after_host e [x04] 16 rest
      | x03 =>
          match rest with
          | [] => Ret (None, Some e, [], e)
          | l :: rest' => after_host e [x03; l] (int l) rest'
          end
      | _ => Ret (None, Some (errorString "error socks address"), rest, e)
      end
  end.

(** ** Frames and sessions (uot.go, "Protocol define of defaultConn") *)

(** [[size][payload]]: what [Write] puts on the wire for the payload [p]. *)
Definition frame (p : list byte) : list byte :=
  to_byte (Z.shiftr (len p) 8) :: to_byte (Z.land (len p) 255) :: p.

(** A caller that writes the packets [ps] one after the other and stops at
    the first error. *)
Fixpoint write_packets (c : defaultConn) (ps : list (list byte))
    : option error * defaultConn :=
  match ps with
  | [] => (None, c)
  | p :: ps' =>
      let '(_, err, c') := defaultConn_Write c p in
      match err with
      | Some e => (Some e, c')
      | None => write_packets c' ps'
      end
  end.

(** A caller that reads [k] packets, each into a fresh buffer of
    [size] bytes, and stops at the first error. *)
Fixpoint read_packets (c : defaultConn) (size : Z) (k : nat)
    : outcome (list (list byte) * option error * defaultConn) :=
  match k with
  | O => Ret ([], None, c)
  | S k' =>
      '(n, err, c', b) <- defaultConn_Read c (make size) ;;
      match err with
      | Some e => Ret ([], Some e, c')
      | None =>
          p <- slice b 0 n ;;
          '(ps, err', c'') <- read_packets c' size k' ;;
          Ret (p :: ps, err', c'')
      end
  end.

(** The two directions of a connection: the read side of [c] put together
    with the write side of [s]. *)
Definition with_write_side (c s : net.Conn) : net.Conn :=
  {| net.inbound := net.inbound c; net.rerr := net.rerr c;
     net.outbound := net.outbound s; net.werr := net.werr s |}.

(** A caller that calls [Write] and then [Read], and one that calls
    [Read] and then [Write], on the same connection; each reports the
    results of both calls, the connection and the buffer. *)
Definition write_then_read (c : defaultConn) (p b : list byte)
    : outcome (Z * option error * Z * option error * defaultConn * list byte) :=
  let '(nw, ew, c1) := defaultConn_Write c p in
  '(nr, er, c2, b') <- defaultConn_Read c1 b ;;
  Ret (nw, ew, nr, er, c2, b').

Definition read_then_write (c : defaultConn) (p b : list byte)
    : outcome (Z * option error * Z * option error * defaultConn * list byte) :=
  '(nr, er, c1, b') <- defaultConn_Read c b ;;
  let '(nw, ew, c2) := defaultConn_Write c1 p in
  Ret (nw, ew, nr, er, c2, b').

(** The buffer of [ReadSocksAddr] once the bytes [p] have been read into
    its front. *)
Definition buf_with (p : list byte) : list byte :=
  p ++ skipn (length p) (make maxAddrLen).

(** * Properties *)

Section Lists.

Lemma len_nonneg (A : Type) (l : list A) : 0 <= len l.
Proof. unfold len. lia. Qed.

Lemma len_app (A : Type) (l1 l2 : list A) : len (l1 ++ l2) = len l1 + len l2.
Proof. unfold len. rewrite length_app. lia. Qed.

Lemma len_cons (A : Type) (x : A) (l : list A) : len (x :: l) = 1 + len l.
Proof. unfold len. simpl length. lia. Qed.

Lemma len_nil (A : Type) : len (@nil A) = 0.
Proof. reflexivity. Qed.

Lemma len_firstn (A : Type) (k : Z) (l : list A) :
  len (firstn (Z.to_nat k) l) = Z.min (Z.max 0 k) (len l).
Proof. unfold len. rewrite length_firstn. lia. Qed.

Lemma len_skipn (A : Type) (k : Z) (l : list A) :
  len (skipn (Z.to_nat k) l) = Z.max 0 (len l - Z.max 0 k).
Proof. unfold len. rewrite length_skipn. lia. Qed.

End Lists.

(** ** [io.ReadFull] on a byte stream *)
Section StreamFacts.

Context {R : Type} `{Stream R}.

Lemma ReadAtLeast_loop_stream (k : Z) :
  forall (fuel : nat) (r : R) (got : list byte),
    k - len got <= Z.of_nat fuel ->
    exists r',
      io.ReadAtLeast_loop fuel r k k got None =
        Ret (got ++ firstn (Z.to_nat (k - len got)) (unread r),
             (if k - len got <=? len (unread r) then None
              else Some (endErr r)),
             r')
      /\ unread r' = skipn (Z.to_nat (k - len got)) (unread r)
      /\ endErr r' = endErr r.
Proof.
  induction fuel as [|fuel IH]; intros r got Hfuel.
  - exists r. simpl.
    destruct (Z.ltb_spec (len got) k) as [Hlt|Hge]; [lia|].
    replace (Z.to_nat (k - len got)) with 0%nat by lia.
    simpl. rewrite app_nil_r.
    destruct (Z.leb_spec (k - len got) (len (unread r))) as [_|Hbad];
      [auto | pose proof (len_nonneg (unread r)); lia].
  - simpl.
    destruct (Z.ltb_spec (len got) k) as [Hlt|Hge].
    + pose proof (Read_stream r (k:=k - len got) ltac:(lia)) as Hread.
      destruct (io.Read r (k - len got)) as [[d e] r1].
      destruct Hread as [Hend Hread].
      destruct (unread r) as [|x xs] eqn:Hu.
      * destruct Hread as (-> & -> & Hu1).
        exists r1. rewrite firstn_nil, skipn_nil.
        destruct (Z.leb_spec (k - len got) (len (@nil byte))) as [Hbad|_];
          [rewrite len_nil in Hbad; lia|].
        destruct fuel; simpl; auto.
      * destruct Hread as (Hd & Hlen & -> & Hsplit).
        assert (0 < len d)
          by (destruct d; [congruence | rewrite len_cons; pose proof (len_nonneg d); lia]).
        destruct (IH r1 (got ++ d)) as (r' & Hloop & Hu' & He');
          [rewrite len_app; lia|].
        exists r'. rewrite Hloop, Hsplit, len_app in *.
        replace (Z.to_nat (k - (len got + len d)))
          with (Z.to_nat (k - len got) - length d)%nat in *
          by (unfold len in *; lia).
        rewrite firstn_app, skipn_app.
        rewrite (firstn_all2 (n:=Z.to_nat (k - len got)) d)
          by (unfold len in *; lia).
        rewrite (skipn_all2 (n:=Z.to_nat (k - len got)) d)
          by (unfold len in *; lia).
        rewrite <- app_assoc, len_app, Hend.
        repeat split; try congruence; try exact Hu'.
        destruct (Z.leb_spec (k - (len got + len d)) (len (unread r1)));
          destruct (Z.leb_spec (k - len got) (len d + len (unread r1)));
          try lia; reflexivity.
    + exists r.
      replace (Z.to_nat (k - len got)) with 0%nat by lia.
      simpl. rewrite app_nil_r.
      destruct (Z.leb_spec (k - len got) (len (unread r))) as [_|Hbad];
        [auto | pose proof (len_nonneg (unread r)); lia].
Qed.

(** [io.ReadFull] for [k] bytes returns: it takes the first [k] unread
    bytes, or all of them and an error when fewer are left. *)
Lemma ReadFull_bytes_stream (r : R) (k : Z) :
  0 <= k ->
  exists r',
    io.ReadFull_bytes r k =
      Ret (firstn (Z.to_nat k) (unread r),
           (if k <=? len (unread r) then None
            else Some (short_err (endErr r) (unread r))),
           r')
    /\ unread r' = skipn (Z.to_nat k) (unread r)
    /\ endErr r' = endErr r.
Proof.
  intros Hk. unfold io.ReadFull_bytes, io.ReadAtLeast.
  rewrite Z.ltb_irrefl.
  destruct (ReadAtLeast_loop_stream k (Z.to_nat k) r [])
    as (r' & Hloop & Hu & He); [rewrite len_nil; lia|].
  rewrite len_nil, Z.sub_0_r in *. simpl in Hloop.
  exists r'. rewrite Hloop. cbn [bind].
  rewrite len_firstn.
  repeat split; auto.
  destruct (Z.leb_spec k (len (unread r))) as [Hle|Hgt].
  - destruct (Z.geb_spec (Z.min (Z.max 0 k) (len (unread r))) k); [auto|lia].
  - destruct (Z.geb_spec (Z.min (Z.max 0 k) (len (unread r))) k); [lia|].
    destruct (unread r) as [|x xs] eqn:Hu0.
    + rewrite len_nil. replace (Z.min (Z.max 0 k) 0) with 0 by lia.
      reflexivity.
    + assert ((Z.min (Z.max 0 k) (len (x :: xs)) >? 0) = true) as ->
        by (rewrite len_cons in *; pose proof (len_nonneg xs); lia).
      destruct (endErr r); reflexivity.
Qed.

End StreamFacts.

(** ** The two readers of the program are byte streams *)

Lemma recv_stream (k : Z) : 0 < k -> forall segs : list (list byte),
  match net.recv segs k with
  | None => concat segs = []
  | Some (d, segs') =>
      d <> [] /\ len d <= k /\ concat segs = d ++ concat segs'
  end.
Proof.
  intros Hk. induction segs as [|seg rest IH]; [reflexivity|].
  destruct seg as [|x seg]; [exact IH|].
  cbn [net.recv concat].
  set (sg := x :: seg) in *.
  assert (Hcut : firstn (Z.to_nat k) sg <> []).
  { subst sg. destruct (Z.to_nat k) eqn:E; [lia | discriminate]. }
  split; [exact Hcut|]. split; [rewrite len_firstn; lia|].
  destruct (Z.leb_spec (len sg) k) as [Hall|Hpart].
  - rewrite firstn_all2 by (unfold len in *; lia). reflexivity.
  - cbn [concat]. rewrite app_assoc, firstn_skipn. reflexivity.
Qed.

#[global, refine] Instance Conn_Stream : Stream net.Conn :=
  {| unread := fun c => concat (net.inbound c);
     endErr := net.rerr |}.
Proof.
  intros c k Hk. unfold io.Read, net.Conn_Reader, net.Read.
  pose proof (recv_stream Hk (net.inbound c)) as Hrecv.
  destruct (net.recv (net.inbound c) k) as [[d segs]|]; cbn.
  - split; [reflexivity|].
    destruct Hrecv as (Hd & Hlen & Hcat). rewrite Hcat.
    destruct d as [|x d]; [congruence|]. cbn. auto.
  - split; [reflexivity|]. rewrite Hrecv. auto.
Defined.

#[global, refine] Instance Reader_Stream : Stream bytes.Reader :=
  {| unread := fun r => skipn (bytes.i r) (bytes.s r);
     endErr := fun _ => EOF |}.
Proof.
  intros r k Hk. unfold io.Read, bytes.Reader_io, bytes.Read.
  destruct (Z.geb_spec (Z.of_nat (bytes.i r)) (len (bytes.s r))) as [Hend|Hmore].
  - split; [reflexivity|].
    rewrite skipn_all2 by (unfold len in *; lia). auto.
  - split; [reflexivity|]. cbn [bytes.s bytes.i].
    destruct (skipn (bytes.i r) (bytes.s r)) as [|x u] eqn:Hu.
    + apply (f_equal (@length byte)) in Hu. rewrite length_skipn in Hu.
      unfold len in *. simpl in Hu. lia.
    + set (d := firstn (Z.to_nat k) (x :: u)).
      assert (Hd : d <> [])
        by (subst d; destruct (Z.to_nat k) eqn:E; [lia | discriminate]).
      repeat split; auto.
      * subst d. rewrite len_firstn. lia.
      * rewrite Nat.add_comm, <- skipn_skipn, Hu. subst d.
        rewrite length_firstn.
        replace (skipn (Nat.min (Z.to_nat k) (length (x :: u))) (x :: u))
          with (skipn (Z.to_nat k) (x :: u)).
        -- symmetry. apply firstn_skipn.
        -- destruct (Nat.le_gt_cases (Z.to_nat k) (length (x :: u))).
           ++ rewrite Nat.min_l by lia. reflexivity.
           ++ rewrite Nat.min_r by lia. rewrite !skipn_all2 by lia. reflexivity.
Defined.

(** ** Slices and buffers *)
Section Buffers.

Lemma slice_prefix (s : list byte) (n : Z) :
  0 <= n <= len s -> slice s 0 n = Ret (firstn (Z.to_nat n) s).
Proof.
  intros Hn. unfold slice.
  destruct (Z.leb_spec 0 0); [|lia].
  destruct (Z.leb_spec 0 n); [|lia].
  destruct (Z.leb_spec n (len s)); [|lia].
  cbn. rewrite Z.sub_0_r. reflexivity.
Qed.

Lemma slice_ok (s : list byte) (lo hi : Z) :
  0 <= lo <= hi -> hi <= len s ->
  slice s lo hi = Ret (firstn (Z.to_nat (hi - lo)) (skipn (Z.to_nat lo) s)).
Proof.
  intros Hlo Hhi. unfold slice.
  destruct (Z.leb_spec 0 lo); [|lia].
  destruct (Z.leb_spec lo hi); [|lia].
  destruct (Z.leb_spec hi (len s)); [|lia].
  reflexivity.
Qed.

Lemma slice_panic (s : list byte) (lo hi : Z) :
  len s < hi -> slice s lo hi = Panic "slice bounds out of range".
Proof.
  intros Hhi. unfold slice.
  destruct (Z.leb_spec hi (len s)); [lia|].
  rewrite andb_false_r. reflexivity.
Qed.

Lemma len_store (s : list byte) (lo : Z) (d : list byte) :
  0 <= lo -> lo + len d <= len s -> len (store s lo d) = len s.
Proof.
  intros Hlo Hfit. unfold store.
  rewrite !len_app. unfold len in *.
  rewrite length_firstn, length_skipn. lia.
Qed.

Lemma store_front (s d : list byte) :
  store s 0 d = d ++ skipn (length d) s.
Proof. reflexivity. Qed.

Lemma buf_with_nil : make maxAddrLen = buf_with [].
Proof. reflexivity. Qed.

Lemma len_make (n : Z) : 0 <= n -> len (make n) = n.
Proof. intros Hn. unfold len, make. rewrite repeat_length. lia. Qed.

Lemma len_buf_with (p : list byte) :
  len p <= maxAddrLen -> len (buf_with p) = maxAddrLen.
Proof.
  intros Hp. unfold buf_with. rewrite len_app.
  pose proof (len_make (n:=maxAddrLen) ltac:(unfold maxAddrLen; lia)) as Hm.
  unfold len in *. rewrite length_skipn. lia.
Qed.

Lemma store_buf_with (p d : list byte) :
  store (buf_with p) (len p) d = buf_with (p ++ d).
Proof.
  unfold store, buf_with, len. rewrite Nat2Z.id.
  rewrite firstn_app, Nat.sub_diag, firstn_all. cbn [firstn].
  rewrite app_nil_r, <- app_assoc. do 2 f_equal.
  rewrite skipn_app, length_app.
  rewrite (skipn_all2 (n:=(length p + length d)%nat) p) by lia.
  cbn [app]. rewrite skipn_skipn. f_equal. lia.
Qed.

Lemma slice_buf_with (p : list byte) :
  len p <= maxAddrLen -> slice (buf_with p) 0 (len p) = Ret p.
Proof.
  intros Hp. rewrite slice_prefix.
  - unfold buf_with, len. rewrite Nat2Z.id.
    rewrite firstn_app, Nat.sub_diag, firstn_all. cbn [firstn].
    rewrite app_nil_r. reflexivity.
  - rewrite len_buf_with by exact Hp. pose proof (len_nonneg p). lia.
Qed.

Lemma index_buf_with (p : list byte) (j : nat) :
  (j < length p)%nat -> len p <= maxAddrLen ->
  index (buf_with p) (Z.of_nat j) = Ret (nth j p x00).
Proof.
  intros Hj Hp. unfold index.
  rewrite len_buf_with by exact Hp.
  destruct (Z.leb_spec 0 (Z.of_nat j)); [|lia].
  destruct (Z.ltb_spec (Z.of_nat j) maxAddrLen); [|unfold len in *; lia].
  cbn. rewrite Nat2Z.id. unfold buf_with. rewrite app_nth1 by exact Hj.
  reflexivity.
Qed.

End Buffers.

Section ReadFullFacts.

Context {R : Type} `{Stream R}.

(** [io.ReadFull(r, buf[lo:hi])] on a byte stream, for a slice expression
    within bounds. *)
Lemma ReadFull_stream (r : R) (buf : list byte) (lo hi : Z) :
  0 <= lo <= hi -> hi <= len buf ->
  exists r',
    io.ReadFull r buf lo hi =
      Ret (len (firstn (Z.to_nat (hi - lo)) (unread r)),
           (if hi - lo <=? len (unread r) then None
            else Some (short_err (endErr r) (unread r))),
           r',
           store buf lo (firstn (Z.to_nat (hi - lo)) (unread r)))
    /\ unread r' = skipn (Z.to_nat (hi - lo)) (unread r)
    /\ endErr r' = endErr r.
Proof.
  intros Hlo Hhi. unfold io.ReadFull.
  rewrite slice_ok by assumption. cbn [bind].
  destruct (ReadFull_bytes_stream r (k:=hi - lo) ltac:(lia))
    as (r' & Hread & Hu & He).
  exists r'. rewrite Hread. cbn [bind]. auto.
Qed.

Lemma ReadFull_panic (r : R) (buf : list byte) (lo hi : Z) :
  len buf < hi -> io.ReadFull r buf lo hi = Panic "slice bounds out of range".
Proof.
  intros Hhi. unfold io.ReadFull. rewrite slice_panic by exact Hhi.
  reflexivity.
Qed.

(** The same call inside [ReadSocksAddr], where [p] has been read so far. *)
Lemma ReadFull_buf_with (r : R) (p : list byte) (lo hi : Z) :
  lo = len p -> lo <= hi <= maxAddrLen ->
  exists r',
    io.ReadFull r (buf_with p) lo hi =
      Ret (len (firstn (Z.to_nat (hi - lo)) (unread r)),
           (if hi - lo <=? len (unread r) then None
            else Some (short_err (endErr r) (unread r))),
           r',
           buf_with (p ++ firstn (Z.to_nat (hi - lo)) (unread r)))
    /\ unread r' = skipn (Z.to_nat (hi - lo)) (unread r)
    /\ endErr r' = endErr r.
Proof.
  intros -> Hhi.
  destruct (ReadFull_stream r (buf_with p) (lo:=len p) (hi:=hi))
    as (r' & Hread & Hrest).
  - pose proof (len_nonneg p). lia.
  - rewrite len_buf_with; lia.
  - exists r'. rewrite Hread, store_buf_with. auto.
Qed.

End ReadFullFacts.

(** ** [ReadSocksAddr] case by case *)

Lemma int_range (b : byte) : 0 <= int b <= 255.
Proof.
  unfold int. pose proof (Byte.to_N_bounded b) as Hb.
  split; [apply N2Z.is_nonneg | lia].
Qed.

Lemma firstn_add (A : Type) (a b : nat) (l : list A) :
  firstn (a + b) l = firstn a l ++ firstn b (skipn a l).
Proof.
  revert l. induction a as [|a IH]; intros [|x l]; cbn; try reflexivity.
  - rewrite firstn_nil. reflexivity.
  - rewrite IH. reflexivity.
Qed.

Lemma index_buf_with_0 (x : byte) (p : list byte) :
  len (x :: p) <= maxAddrLen -> index (buf_with (x :: p)) 0 = Ret x.
Proof.
  intros Hp. apply (@index_buf_with (x :: p) 0%nat); [cbn; lia | exact Hp].
Qed.

Lemma index_buf_with_1 (x y : byte) (p : list byte) :
  len (x :: y :: p) <= maxAddrLen -> index (buf_with (x :: y :: p)) 1 = Ret y.
Proof.
  intros Hp. apply (@index_buf_with (x :: y :: p) 1%nat); [cbn; lia | exact Hp].
Qed.

Ltac len_norm :=
  repeat rewrite ?len_app, ?len_cons, ?len_nil, ?len_firstn, ?len_skipn in *.

Ltac len_solve := unfold maxAddrLen in *; len_norm; unfold len in *; lia.

(** One [io.ReadFull] of [ReadSocksAddr], run on the stream. *)
Ltac read_full :=
  match goal with
  | |- context [io.ReadFull ?r (buf_with ?q) ?lo ?hi] =>
      let r' := fresh "r" in
      let E := fresh "E" in
      let U := fresh "U" in
      let Er := fresh "Er" in
      destruct (ReadFull_buf_with r q (lo:=lo) (hi:=hi)) as (r' & E & U & Er);
      [ try len_solve | try len_solve | rewrite E; clear E; cbn [bind] ]
  end.

(** Settle the test of whether the bytes asked for were all there. *)
Ltac enough_bytes :=
  match goal with
  | |- context [if ?a <=? ?b then _ else _] =>
      destruct (Z.leb_spec a b); [ | exfalso; len_solve ]
  end.

Ltac short_bytes :=
  match goal with
  | |- context [if ?a <=? ?b then _ else _] =>
      destruct (Z.leb_spec a b); [ exfalso; len_solve | ]
  end.

Section Parse.

Context {R : Type} `{Stream R}.

(** The first read: the type byte. *)
Lemma ReadSocksAddr_first (r : R) (t : byte) (rest : list byte) :
  unread r = t :: rest ->
  exists r0,
    io.ReadFull r (make maxAddrLen) 0 1 = Ret (1, None, r0, buf_with [t])
    /\ unread r0 = rest /\ endErr r0 = endErr r.
Proof.
  intros Hu. rewrite buf_with_nil.
  destruct (ReadFull_buf_with r [] (lo:=0) (hi:=1)) as (r0 & E & U & Er);
    [reflexivity | unfold maxAddrLen; lia |].
  rewrite Hu in *. exists r0. rewrite E.
  destruct (Z.leb_spec (1 - 0) (len (t :: rest)));
    [|exfalso; len_solve].
  split; [reflexivity | auto].
Qed.

(** The statements after the switch: the port is read into [buf[n:n+2]]
    and [buf[:n]] is returned whatever that read said. *)
Lemma ReadSocksAddr_port (r : R) (p : list byte) (n : Z) :
  n = len p -> n + 2 <= maxAddrLen ->
  exists r',
    ('(nn, _, r2, buf) <- io.ReadFull r (buf_with p) n (n + 2) ;;
     a <- slice buf 0 (n + nn) ;;
     Ret (Some a, @None error, r2))
    = Ret (Some (p ++ firstn 2 (unread r)), None, r')
    /\ unread r' = skipn 2 (unread r) /\ endErr r' = endErr r.
Proof.
  intros Hn Hfit.
  destruct (ReadFull_buf_with r p (lo:=n) (hi:=n + 2)) as (r' & E & U & Er);
    [exact Hn | lia |].
  rewrite E. cbn [bind].
  replace (n + 2 - n) with 2 in * by lia.
  change (Z.to_nat 2) with 2%nat in *.
  exists r'. split; [|auto].
  replace (n + len (firstn 2 (unread r)))
    with (len (p ++ firstn 2 (unread r))) by (rewrite len_app; lia).
  rewrite slice_buf_with; [reflexivity|].
  rewrite len_app. change 2%nat with (Z.to_nat 2). rewrite len_firstn. lia.
Qed.

Lemma ReadSocksAddr_port_panic (r : R) (p : list byte) (n : Z) :
  n = len p -> n <= maxAddrLen < n + 2 ->
  ('(nn, _, r2, buf) <- io.ReadFull r (buf_with p) n (n + 2) ;;
   a <- slice buf 0 (n + nn) ;;
   Ret (Some a, @None error, r2))
  = Panic "slice bounds out of range".
Proof.
  intros Hn Hover. rewrite ReadFull_panic; [reflexivity|].
  rewrite len_buf_with; lia.
Qed.

Lemma ReadSocksAddr_empty (r : R) :
  unread r = [] ->
  exists r',
    ReadSocksAddr r = Ret (None, Some (endErr r), r')
    /\ unread r' = [] /\ endErr r' = endErr r.
Proof.
  intros Hu. unfold ReadSocksAddr. rewrite buf_with_nil.
  read_full. rewrite Hu in *. short_bytes.
  exists r0. rewrite skipn_nil in *. auto.
Qed.

(** The two fixed-width cases, [hlen] being 4 or 16. *)
Lemma ReadSocksAddr_ip_short (r : R) (t : byte) (rest : list byte) (hlen : Z) :
  unread r = t :: rest ->
  (t = x01 /\ hlen = 4) \/ (t = x04 /\ hlen = 16) ->
  len rest < hlen ->
  exists r',
    ReadSocksAddr r = Ret (None, Some (short_err (endErr r) rest), r')
    /\ unread r' = [] /\ endErr r' = endErr r.
Proof.
  intros Hu Ht Hlen. unfold ReadSocksAddr.
  destruct (ReadSocksAddr_first r Hu) as (r0 & -> & U & Er).
  cbn [bind]. rewrite index_buf_with_0 by len_solve.
  destruct Ht as [[-> ->]|[-> ->]]; cbn [bind];
    read_full; rewrite U in *; short_bytes;
    exists r1; rewrite Er in *; (split; [reflexivity|]);
    (split; [|congruence]);
    rewrite U0; apply skipn_all2; unfold len in *; lia.
Qed.

Lemma ReadSocksAddr_ip (r : R) (t : byte) (rest : list byte) (hlen : Z) :
  unread r = t :: rest ->
  (t = x01 /\ hlen = 4) \/ (t = x04 /\ hlen = 16) ->
  hlen <= len rest ->
  exists r',
    ReadSocksAddr r =
      Ret (Some (t :: firstn (Z.to_nat (hlen + 2)) rest), None, r')
    /\ unread r' = skipn (Z.to_nat (hlen + 2)) rest /\ endErr r' = endErr r.
Proof.
  intros Hu Ht Hlen. unfold ReadSocksAddr.
  destruct (ReadSocksAddr_first r Hu) as (r0 & -> & U & Er).
  cbn [bind]. rewrite index_buf_with_0 by len_solve.
  destruct Ht as [[-> ->]|[-> ->]]; cbn [bind];
    read_full; rewrite U in *; enough_bytes;
    match goal with
    | |- context [io.ReadFull ?r' (buf_with ?p) ?n (?n + 2)] =>
        destruct (@ReadSocksAddr_port r' p n) as (r2 & -> & U2 & Er2);
        [len_solve | len_solve |]
    end;
    exists r2; rewrite U0, skipn_skipn in U2;
    (split; [|split; [exact U2 | congruence]]);
    rewrite U0; cbn [app]; rewrite <- firstn_add; reflexivity.
Qed.

(** The domain-name case: the second read is the length byte. *)
Lemma ReadSocksAddr_domain_no_length (r : R) :
  unread r = [x03] ->
  exists r',
    ReadSocksAddr r = Ret (None, Some (endErr r), r')
    /\ unread r' = [] /\ endErr r' = endErr r.
Proof.
  intros Hu. unfold ReadSocksAddr.
  destruct (ReadSocksAddr_first r Hu) as (r0 & -> & U & Er).
  cbn [bind]. rewrite index_buf_with_0 by len_solve. cbn [bind].
  read_full. rewrite U in *. short_bytes. cbn [bind short_err].
  exists r1. rewrite skipn_nil in *. rewrite Er in *. auto.
Qed.

Lemma ReadSocksAddr_domain_length (r : R) (l : byte) (rest : list byte) :
  unread r = x03 :: l :: rest ->
  exists r1,
    unread r1 = rest /\ endErr r1 = endErr r /\
    ReadSocksAddr r =
      sw <- ('(nn, err, r, buf) <-
               io.ReadFull r1 (buf_with [x03; l]) 2 (2 + int l) ;;
             Ret (inr (nn, err, 2, r, buf))) ;;
      match sw : (option SocksAddr * option error * R)
                 + (Z * option error * Z * R * list byte) with
      | inl early => Ret early
      | inr (nn, err, n, r, buf) =>
          match err with
          | Some e => Ret (None, Some e, r)
          | None =>
              let n := n + nn in
              '(nn, err, r, buf) <- io.ReadFull r buf n (n + 2) ;;
              let n := n + nn in
              a <- slice buf 0 n ;;
              Ret (Some a, None, r)
          end
      end.
Proof.
  intros Hu. unfold ReadSocksAddr.
  destruct (ReadSocksAddr_first r Hu) as (r0 & -> & U & Er).
  cbn [bind]. rewrite index_buf_with_0 by len_solve. cbn [bind].
  read_full. rewrite U in *. enough_bytes.
  change (Z.to_nat (2 - 1)) with 1%nat in *. cbn [firstn skipn app] in *.
  rewrite index_buf_with_1 by len_solve. cbn [bind].
  exists r1. split; [exact U0|]. split; [congruence|]. reflexivity.
Qed.

Lemma ReadSocksAddr_domain_short (r : R) (l : byte) (rest : list byte) :
  unread r = x03 :: l :: rest -> len rest < int l ->
  exists r',
    ReadSocksAddr r = Ret (None, Some (short_err (endErr r) rest), r')
    /\ unread r' = [] /\ endErr r' = endErr r.
Proof.
  intros Hu Hlen. pose proof (int_range l) as Hl.
  destruct (ReadSocksAddr_domain_length r Hu) as (r1 & U & Er & ->).
  read_full. rewrite U in *. short_bytes. cbn [bind].
  exists r0. rewrite Er in *. split; [reflexivity|]. split; [|congruence].
  rewrite U0. apply skipn_all2. unfold len in *. lia.
Qed.

Lemma ReadSocksAddr_domain (r : R) (l : byte) (rest : list byte) :
  unread r = x03 :: l :: rest -> int l <= len rest ->
  2 + int l + 2 <= maxAddrLen ->
  exists r',
    ReadSocksAddr r =
      Ret (Some (x03 :: l :: firstn (Z.to_nat (int l + 2)) rest), None, r')
    /\ unread r' = skipn (Z.to_nat (int l + 2)) rest /\ endErr r' = endErr r.
Proof.
  intros Hu Hlen Hfit. pose proof (int_range l) as Hl.
  destruct (ReadSocksAddr_domain_length r Hu) as (r1 & U & Er & ->).
  read_full. rewrite U in *. enough_bytes. cbn [bind].
  replace (2 + int l - 2) with (int l) in * by lia.
  match goal with
  | |- context [io.ReadFull ?r' (buf_with ?p) ?n (?n + 2)] =>
      destruct (@ReadSocksAddr_port r' p n) as (r2 & -> & U2 & Er2);
      [len_solve | len_solve |]
  end.
  exists r2. rewrite U0, skipn_skipn in U2.
  replace (Z.to_nat (int l + 2)) with (Z.to_nat (int l) + 2)%nat by lia.
  split; [|split; [rewrite Nat.add_comm; exact U2 | congruence]].
  rewrite U0. cbn [app]. rewrite <- firstn_add. reflexivity.
Qed.

(** A domain name of 254 or 255 bytes fills [buf] to within one byte of
    its end or to its end: [buf[n:n+2]] is out of bounds. *)
Lemma ReadSocksAddr_domain_panic (r : R) (l : byte) (rest : list byte) :
  unread r = x03 :: l :: rest -> int l <= len rest ->
  maxAddrLen < 2 + int l + 2 ->
  ReadSocksAddr r = Panic "slice bounds out of range".
Proof.
  intros Hu Hlen Hover. pose proof (int_range l) as Hl.
  destruct (ReadSocksAddr_domain_length r Hu) as (r1 & U & Er & ->).
  read_full. rewrite U in *. enough_bytes. cbn [bind].
  replace (2 + int l - 2) with (int l) in * by lia.
  match goal with
  | |- context [io.ReadFull ?r' (buf_with ?p) ?n (?n + 2)] =>
      apply (@ReadSocksAddr_port_panic r' p n); len_solve
  end.
Qed.

End Parse.

(** ** [ReadSocksAddr] against the wire format *)
Section Wire.

Context {R : Type} `{Stream R}.

Lemma host_end_min (bs : list byte) (h : Z) :
  host_end bs = Some h -> 2 <= h <= 2 + 255.
Proof.
  destruct bs as [|t bs]; [discriminate|].
  destruct t; try discriminate; cbn [host_end].
  - intros Hh. assert (h = 1 + 4) as -> by congruence. lia.
  - destruct bs as [|l bs]; [discriminate|].
    intros Hh. assert (h = 2 + int l) as -> by congruence.
    pose proof (int_range l). lia.
  - intros Hh. assert (h = 1 + 16) as -> by congruence. lia.
Qed.

(** The header and host are there and the buffer has room for the port:
    the bytes up to the end of the port, or up to the end of the stream
    when that comes first, are returned with a nil error. *)
Lemma ReadSocksAddr_host_read (r : R) (h : Z) :
  host_end (unread r) = Some h -> h <= len (unread r) ->
  h + 2 <= maxAddrLen ->
  exists r',
    ReadSocksAddr r = Ret (Some (firstn (Z.to_nat (h + 2)) (unread r)), None, r')
    /\ unread r' = skipn (Z.to_nat (h + 2)) (unread r)
    /\ endErr r' = endErr r.
Proof.
  intros Hh Hlen Hfit.
  destruct (unread r) as [|t bs] eqn:Hu; [discriminate|].
  destruct t; try discriminate; cbn [host_end] in Hh.
  - assert (h = 1 + 4) as -> by congruence.
    destruct (@ReadSocksAddr_ip _ _ _ r x01 bs 4 Hu) as (r' & E & U & Er);
      [auto | len_solve |].
    exists r'. rewrite E. auto.
  - destruct bs as [|l bs]; [discriminate|].
    assert (h = 2 + int l) as -> by congruence.
    pose proof (int_range l).
    destruct (@ReadSocksAddr_domain _ _ _ r l bs Hu) as (r' & E & U & Er);
      [len_solve | len_solve |].
    exists r'. rewrite E.
    replace (Z.to_nat (2 + int l + 2)) with (S (S (Z.to_nat (int l + 2))))
      by lia.
    auto.
  - assert (h = 1 + 16) as -> by congruence.
    destruct (@ReadSocksAddr_ip _ _ _ r x04 bs 16 Hu) as (r' & E & U & Er);
      [auto | len_solve |].
    exists r'. rewrite E. auto.
Qed.

(** The header and host are there but the buffer has no room for the
    port: the call panics. *)
Lemma ReadSocksAddr_host_panic (r : R) (h : Z) :
  host_end (unread r) = Some h -> h <= len (unread r) ->
  maxAddrLen < h + 2 ->
  ReadSocksAddr r = Panic "slice bounds out of range".
Proof.
  intros Hh Hlen Hover.
  destruct (unread r) as [|t bs] eqn:Hu; [discriminate|].
  destruct t; try discriminate; cbn [host_end] in Hh.
  - assert (h = 1 + 4) as -> by congruence. unfold maxAddrLen in *. lia.
  - destruct bs as [|l bs]; [discriminate|].
    assert (h = 2 + int l) as -> by congruence.
    apply (@ReadSocksAddr_domain_panic _ _ _ r l bs Hu); len_solve.
  - assert (h = 1 + 16) as -> by congruence. unfold maxAddrLen in *. lia.
Qed.

(** The stream ends inside the host field: an error and no address. *)
Lemma ReadSocksAddr_host_short (r : R) (h : Z) :
  host_end (unread r) = Some h -> len (unread r) < h ->
  exists e r',
    ReadSocksAddr r = Ret (None, Some e, r')
    /\ (e = endErr r \/ e = ErrUnexpectedEOF).
Proof.
  intros Hh Hlen.
  destruct (unread r) as [|t bs] eqn:Hu; [discriminate|].
  assert (Herr : forall d, short_err (endErr r) d = endErr r
                           \/ short_err (endErr r) d = ErrUnexpectedEOF)
    by (intros [|x d]; destruct (endErr r); cbn; auto).
  destruct t; try discriminate; cbn [host_end] in Hh.
  - assert (h = 1 + 4) as -> by congruence.
    destruct (@ReadSocksAddr_ip_short _ _ _ r x01 bs 4 Hu) as (r' & E & _);
      [auto | len_solve |].
    eauto.
  - destruct bs as [|l bs]; [discriminate|].
    assert (h = 2 + int l) as -> by congruence.
    destruct (@ReadSocksAddr_domain_short _ _ _ r l bs Hu) as (r' & E & _);
      [len_solve |].
    eauto.
  - assert (h = 1 + 16) as -> by congruence.
    destruct (@ReadSocksAddr_ip_short _ _ _ r x04 bs 16 Hu) as (r' & E & _);
      [auto | len_solve |].
    eauto.
Qed.

End Wire.

(** ** Truncated and complete addresses *)
Section Truncation.

Context {R : Type} `{Stream R}.

Lemma host_end_firstn (a : list byte) (h : Z) (k : nat) :
  host_end a = Some h -> (2 <= k)%nat -> host_end (firstn k a) = Some h.
Proof.
  intros Hh Hk.
  destruct k as [|[|k]]; try lia.
  destruct a as [|t [|l a]]; try discriminate; [|exact Hh].
  destruct t; try discriminate; exact Hh.
Qed.

Lemma host_end_app (a more : list byte) (h : Z) :
  host_end a = Some h -> host_end (a ++ more) = Some h.
Proof.
  intros Hh.
  destruct a as [|t [|l a]]; try discriminate; [|exact Hh].
  destruct t; try discriminate; exact Hh.
Qed.

(** A stream that ends before the host field of the address [a] is
    complete: an error of the read that came up short, and no address. *)
Lemma ReadSocksAddr_truncated_host (r : R) (a : list byte) (h : Z) (k : nat) :
  host_end a = Some h -> Z.of_nat k < h -> unread r = firstn k a ->
  exists e r',
    ReadSocksAddr r = Ret (None, Some e, r')
    /\ (e = endErr r \/ e = ErrUnexpectedEOF).
Proof.
  intros Hh Hk Hu.
  destruct k as [|[|k]].
  - destruct (ReadSocksAddr_empty r Hu) as (r' & E & _). eauto.
  - destruct a as [|t a]; [discriminate|].
    destruct t; try discriminate; cbn [firstn] in Hu.
    + apply (@ReadSocksAddr_host_short _ _ _ r (1 + 4));
        rewrite Hu; [reflexivity | cbn; lia].
    + destruct (ReadSocksAddr_domain_no_length r Hu) as (r' & E & _). eauto.
    + apply (@ReadSocksAddr_host_short _ _ _ r (1 + 16));
        rewrite Hu; [reflexivity | cbn; lia].
  - apply (@ReadSocksAddr_host_short _ _ _ r h); rewrite Hu.
    + apply host_end_firstn; [exact Hh | lia].
    + unfold len. rewrite length_firstn. lia.
Qed.

(** A stream that ends inside the port field of [a], or right before it:
    the error of the last [io.ReadFull] is dropped and the bytes that did
    arrive are returned as the address. *)
Lemma ReadSocksAddr_truncated_port (r : R) (a : list byte) (h : Z) (k : nat) :
  host_end a = Some h -> len a = h + 2 -> h + 2 <= maxAddrLen ->
  h <= Z.of_nat k < h + 2 -> unread r = firstn k a ->
  exists r', ReadSocksAddr r = Ret (Some (firstn k a), None, r').
Proof.
  intros Hh Hlen Hfit Hk Hu.
  pose proof (host_end_min _ Hh) as Hmin.
  assert (Hk' : len (firstn k a) = Z.of_nat k)
    by (unfold len in *; rewrite length_firstn; lia).
  destruct (@ReadSocksAddr_host_read _ _ _ r h) as (r' & E & _).
  - rewrite Hu. apply host_end_firstn; [exact Hh | lia].
  - rewrite Hu. lia.
  - exact Hfit.
  - exists r'. rewrite E, Hu.
    rewrite (firstn_all2 (n:=Z.to_nat (h + 2)) (firstn k a))
      by (unfold len in *; lia).
    reflexivity.
Qed.

(** A complete address that fits the buffer is returned as it was sent,
    and the stream is left right behind it. *)
Lemma ReadSocksAddr_roundtrip (r : R) (a more : list byte) :
  is_addr a -> len a <= maxAddrLen -> unread r = a ++ more ->
  exists r',
    ReadSocksAddr r = Ret (Some a, None, r')
    /\ unread r' = more /\ endErr r' = endErr r.
Proof.
  intros (h & Hh & Hlen) Hfit Hu.
  pose proof (host_end_min _ Hh) as Hmin.
  destruct (@ReadSocksAddr_host_read _ _ _ r h) as (r' & E & U & Er).
  - rewrite Hu. apply host_end_app. exact Hh.
  - rewrite Hu, len_app. pose proof (len_nonneg more). lia.
  - lia.
  - exists r'. rewrite E, U, Hu.
    replace (Z.to_nat (h + 2)) with (length a + 0)%nat
      by (unfold len in *; lia).
    rewrite firstn_app_2, skipn_app, Nat.add_0_r, skipn_all.
    replace (length a - length a)%nat with 0%nat by lia.
    cbn [firstn skipn app]. rewrite app_nil_r. auto.
Qed.

(** A complete address longer than the buffer makes the call panic. *)
Lemma ReadSocksAddr_roundtrip_panic (r : R) (a more : list byte) :
  is_addr a -> maxAddrLen < len a -> unread r = a ++ more ->
  ReadSocksAddr r = Panic "slice bounds out of range".
Proof.
  intros (h & Hh & Hlen) Hover Hu.
  apply (@ReadSocksAddr_host_panic _ _ _ r h).
  - rewrite Hu. apply host_end_app. exact Hh.
  - rewrite Hu, len_app. pose proof (len_nonneg more). lia.
  - lia.
Qed.

End Truncation.

(** ** The length prefix *)
Section Prefix.

Lemma int_to_byte (z : Z) : int (to_byte z) = z mod 256.
Proof.
  unfold int, to_byte.
  pose proof (Z.mod_pos_bound z 256 ltac:(lia)) as Hmod.
  destruct (Byte.of_N (Z.to_N (z mod 256))) as [b|] eqn:E.
  - apply Byte.to_of_N in E. rewrite E. lia.
  - apply Byte.of_N_None_iff in E. lia.
Qed.

(** Decoding the two bytes [Write] sends gives back the length. *)
Lemma prefix_decode (n : Z) :
  0 <= n < 65536 ->
  Z.lor (Z.shiftl (int (to_byte (Z.shiftr n 8))) 8)
        (int (to_byte (Z.land n 255))) = n.
Proof.
  intros Hn. rewrite !int_to_byte.
  change 255 with (Z.ones 8). rewrite Z.land_ones by lia.
  rewrite Z.shiftr_div_pow2 by lia.
  change 256 with (2 ^ 8) in *.
  rewrite (Z.mod_small (n / 2 ^ 8)) by
    (split; [apply Z.div_pos; lia | apply Z.div_lt_upper_bound; lia]).
  rewrite Z.mod_mod by lia.
  rewrite <- Z.shiftr_div_pow2 by lia.
  apply Z.bits_inj'. intros i Hi.
  rewrite Z.lor_spec.
  destruct (Z.lt_ge_cases i 8) as [Hlow|Hhigh].
  - rewrite Z.shiftl_spec_low by lia.
    rewrite Z.mod_pow2_bits_low by lia. reflexivity.
  - rewrite Z.shiftl_spec by lia.
    rewrite Z.shiftr_spec by lia.
    rewrite Z.mod_pow2_bits_high by lia.
    rewrite orb_false_r. f_equal. lia.
Qed.

Lemma prefix_range (b0 b1 : byte) :
  0 <= Z.lor (Z.shiftl (int b0) 8) (int b1) < 65536.
Proof.
  pose proof (int_range b0) as H0. pose proof (int_range b1) as H1.
  assert (Hnn : 0 <= Z.lor (Z.shiftl (int b0) 8) (int b1))
    by (apply Z.lor_nonneg; split; [apply Z.shiftl_nonneg|]; lia).
  split; [exact Hnn|].
  destruct (Z.eq_dec (Z.lor (Z.shiftl (int b0) 8) (int b1)) 0) as [->|Hnz];
    [lia|].
  apply Z.log2_lt_pow2 with (b:=16); [lia|].
  rewrite Z.log2_lor by (try apply Z.shiftl_nonneg; lia).
  apply Z.max_lub_lt.
  - destruct (Z.eq_dec (int b0) 0) as [E|E].
    + rewrite E. cbn. lia.
    + rewrite Z.log2_shiftl by lia.
      assert (Z.log2 (int b0) < 8) by (apply Z.log2_lt_pow2; lia). lia.
  - destruct (Z.eq_dec (int b1) 0) as [E|E].
    + rewrite E. cbn. lia.
    + assert (Z.log2 (int b1) < 8) by (apply Z.log2_lt_pow2; lia). lia.
Qed.

Lemma index_cons_0 (x : byte) (s : list byte) : index (x :: s) 0 = Ret x.
Proof.
  unfold index. rewrite len_cons. pose proof (len_nonneg s).
  destruct (Z.ltb_spec 0 (1 + len s)); [reflexivity | lia].
Qed.

Lemma index_cons_1 (x y : byte) (s : list byte) :
  index (x :: y :: s) 1 = Ret y.
Proof.
  unfold index. rewrite !len_cons. pose proof (len_nonneg s).
  destruct (Z.ltb_spec 1 (1 + (1 + len s))); [reflexivity | lia].
Qed.

End Prefix.

(** ** [defaultConn] *)
Section Framing.

(** The first read of [Read]: the two prefix bytes land in [b[:2]]. *)
Lemma defaultConn_Read_prefix (c : defaultConn) (b : list byte)
    (b0 b1 : byte) (rest : list byte) :
  2 <= len b -> unread (Conn c) = b0 :: b1 :: rest ->
  exists conn,
    io.ReadFull (Conn c) b 0 2 =
      Ret (2, None, conn, b0 :: b1 :: skipn 2 b)
    /\ unread conn = rest.
Proof.
  intros Hb Hu.
  destruct (ReadFull_stream (Conn c) b (lo:=0) (hi:=2))
    as (conn & E & U & _); [lia | lia |].
  rewrite Hu in *. exists conn. rewrite E.
  destruct (Z.leb_spec (2 - 0) (len (b0 :: b1 :: rest)));
    [|rewrite !len_cons in *; pose proof (len_nonneg rest); lia].
  split; [reflexivity | exact U].
Qed.

(** [Read] when the record is there and fits the buffer. *)
Lemma defaultConn_Read_record (c : defaultConn) (b : list byte)
    (b0 b1 : byte) (rest : list byte) :
  let n := Z.lor (Z.shiftl (int b0) 8) (int b1) in
  2 <= len b -> unread (Conn c) = b0 :: b1 :: rest ->
  n <= len b -> n <= len rest ->
  exists c',
    defaultConn_Read c b =
      Ret (n, None, c',
           firstn (Z.to_nat n) rest
             ++ skipn (Z.to_nat n) (b0 :: b1 :: skipn 2 b))
    /\ unread (Conn c') = skipn (Z.to_nat n) rest.
Proof.
  intros n Hb Hu Hfit Hthere.
  pose proof (prefix_range b0 b1) as Hn. fold n in Hn.
  unfold defaultConn_Read.
  destruct (Z.ltb_spec (len b) 2); [lia|].
  destruct (defaultConn_Read_prefix c b Hb Hu) as (conn & -> & U).
  cbn [bind]. rewrite index_cons_0, index_cons_1. cbn [bind].
  fold n.
  assert (Hlen : len (b0 :: b1 :: skipn 2 b) = len b).
  { rewrite !len_cons. change 2%nat with (Z.to_nat 2).
    rewrite len_skipn. lia. }
  rewrite Hlen.
  destruct (Z.ltb_spec (len b) n); [lia|].
  cbn [Conn with_Conn].
  destruct (ReadFull_stream conn (b0 :: b1 :: skipn 2 b) (lo:=0) (hi:=n))
    as (conn' & E & U' & _); [lia | lia |].
  rewrite E, U, Z.sub_0_r in *. cbn [bind].
  destruct (Z.leb_spec n (len rest)); [|lia].
  exists (with_Conn (with_Conn c conn) conn').
  split; [|exact U'].
  rewrite len_firstn, store_front.
  replace (Z.min (Z.max 0 n) (len rest)) with n by lia.
  rewrite length_firstn.
  replace (Nat.min (Z.to_nat n) (length rest)) with (Z.to_nat n)
    by (unfold len in *; lia).
  reflexivity.
Qed.

(** [Read] when the buffer is smaller than the record announced. *)
Lemma defaultConn_Read_short (c : defaultConn) (b : list byte)
    (b0 b1 : byte) (rest : list byte) :
  unread (Conn c) = b0 :: b1 :: rest ->
  len b < Z.lor (Z.shiftl (int b0) 8) (int b1) ->
  exists c' b',
    defaultConn_Read c b = Ret (0, Some ErrShortBuffer, c', b').
Proof.
  intros Hu Hsmall. unfold defaultConn_Read.
  destruct (Z.ltb_spec (len b) 2) as [|Hb]; [eauto|].
  destruct (defaultConn_Read_prefix c b Hb Hu) as (conn & -> & U).
  cbn [bind]. rewrite index_cons_0, index_cons_1. cbn [bind].
  assert (Hlen : len (b0 :: b1 :: skipn 2 b) = len b).
  { rewrite !len_cons. change 2%nat with (Z.to_nat 2).
    rewrite len_skipn. lia. }
  rewrite Hlen.
  destruct (Z.ltb_spec (len b) (Z.lor (Z.shiftl (int b0) 8) (int b1)));
    [eauto | lia].
Qed.

(** [Write] on a healthy transport: two writes, prefix then payload. *)
Lemma defaultConn_Write_ok (c : defaultConn) (b : list byte) :
  net.werr (Conn c) = None -> len b <= MaxPacketSize - 2 ->
  exists c',
    defaultConn_Write c b = (len b, None, c')
    /\ net.outbound (Conn c') =
         net.outbound (Conn c)
           ++ [[to_byte (Z.shiftr (len b) 8); to_byte (Z.land (len b) 255)]; b]
    /\ net.werr (Conn c') = None.
Proof.
  intros Hw Hlen. unfold defaultConn_Write, net.Write.
  destruct (Z.gtb_spec (len b) (MaxPacketSize - 2)); [lia|].
  rewrite Hw. cbn.
  eexists. split; [reflexivity|]. cbn. rewrite <- app_assoc. auto.
Qed.

End Framing.

(** ** [defaultPacketConn] *)
Section Datagrams.

Lemma unread_NewReader (l : list byte) : unread (bytes.NewReader l) = l.
Proof. reflexivity. Qed.

Lemma is_addr_len (a : list byte) : is_addr a -> 4 <= len a.
Proof.
  intros (h & Hh & Hlen). pose proof (host_end_min _ Hh). lia.
Qed.

(** [ReadPacket] on a received datagram that is an address the parser
    has room for, followed by a payload: the address is the target and
    the payload is moved to the front of the caller's buffer. *)
Lemma defaultPacketConn_ReadPacket_strips (c : defaultPacketConn)
    (p d : list byte) (from : net.Addr) (q : list (list byte * net.Addr))
    (a payload : list byte) :
  net.pending (PacketConn c) = (d, from) :: q ->
  firstn (length p) d = a ++ payload ->
  is_addr a -> len a <= maxAddrLen ->
  exists c' p',
    defaultPacketConn_ReadPacket c p =
      Ret (len payload, net.Socks a, from, None, c', p')
    /\ firstn (length payload) p' = payload
    /\ length p' = length p
    /\ net.pending (PacketConn c') = q.
Proof.
  intros Hq Hrecv Ha Hfit.
  unfold defaultPacketConn_ReadPacket, net.ReadFrom. rewrite Hq.
  unfold copy. rewrite Hrecv.
  set (tail := skipn (length d) p).
  assert (Hn : Z.min (len p) (len d) = len (a ++ payload)).
  { rewrite <- Hrecv. unfold len. rewrite length_firstn. lia. }
  assert (Hp : length ((a ++ payload) ++ tail) = length p).
  { rewrite <- Hrecv. subst tail.
    rewrite length_app, length_firstn, length_skipn. lia. }
  rewrite Hn.
  rewrite slice_prefix by (rewrite !len_app; unfold len; lia).
  unfold len at 1. rewrite Nat2Z.id, firstn_app, Nat.sub_diag, firstn_all.
  cbn [firstn bind]. rewrite app_nil_r.
  destruct (@ReadSocksAddr_roundtrip bytes.Reader _ _
              (bytes.NewReader (a ++ payload)) a payload Ha Hfit
              (unread_NewReader (a ++ payload)))
    as (r' & -> & _).
  cbn [bind bytes_of].
  rewrite slice_ok by (rewrite !len_app; unfold len; lia).
  cbn [bind].
  replace (Z.to_nat (len (a ++ payload) - len a)) with (length payload)
    by (rewrite len_app; unfold len; lia).
  assert (Hsrc : firstn (length payload)
                   (skipn (Z.to_nat (len a)) ((a ++ payload) ++ tail))
                 = payload).
  { unfold len. rewrite Nat2Z.id, <- app_assoc, skipn_app, skipn_all.
    rewrite Nat.sub_diag. cbn [skipn app].
    rewrite firstn_app, Nat.sub_diag, firstn_all. cbn [firstn].
    apply app_nil_r. }
  rewrite Hsrc, Hp.
  assert (Hshort : (length payload <= length p)%nat)
    by (rewrite <- Hp, !length_app; lia).
  rewrite (firstn_all2 (n:=length p) payload) by exact Hshort.
  replace (len (a ++ payload) - len a) with (len payload)
    by (rewrite len_app; lia).
  eexists _, _. split; [reflexivity|].
  rewrite firstn_app, Nat.sub_diag, firstn_all. cbn [firstn].
  rewrite app_nil_r. split; [reflexivity|].
  split; [|reflexivity].
  rewrite length_app, length_skipn, Hp. lia.
Qed.

End Datagrams.

(** * The specification, property by property *)

(** ** Address codec *)

(** C1, at the input that breaks it: the IPv4 address 10.0.0.1:53 cut
    after six of its seven bytes, so that the stream ends inside the port
    field.  [ReadSocksAddr] returns the six bytes as an address with a nil
    error; the error of the last [io.ReadFull] is assigned and never
    looked at.  (Truncations before the port field do fail:
    [ReadSocksAddr_truncated_host].) *)
Theorem C1_port_truncation_returns_address :
  ReadSocksAddr (bytes.NewReader (firstn 6 addr_10_0_0_1_53)) =
    Ret (Some [x01; x0a; x00; x00; x01; x00], None,
         {| bytes.s := [x01; x0a; x00; x00; x01; x00]; bytes.i := 6 |}).
Proof. vm_compute. reflexivity. Qed.

(** C3 as stated fails: from the stream 03 00 00 50, a domain name of
    length zero with its port, [ReadSocksAddr] returns a four-byte address
    whose length byte is 0. *)
Lemma C3_counterexample :
  ~ (forall (r r' : bytes.Reader) (a : SocksAddr) (err : option error),
       ReadSocksAddr r = Ret (Some a, err, r') ->
       7 <= len a <= 262 /\
       forall l tl, a = x03 :: l :: tl ->
                    1 <= int l <= 255 /\ len tl = int l + 2).
Proof.
  intros Hclaim.
  destruct (Hclaim (bytes.NewReader [x03; x00; x00; x50])
                   {| bytes.s := [x03; x00; x00; x50]; bytes.i := 4 |}
                   [x03; x00; x00; x50] None) as [Hlen _].
  - vm_compute. reflexivity.
  - vm_compute in Hlen. destruct Hlen as [Hlow _]. apply Hlow. reflexivity.
Qed.

(** C3, amended: every address [ReadSocksAddr] returns from a stream that
    holds the header, the host and both port bytes has a total length
    between 4 and 262, and when it is a domain name its length byte, a
    value from 0 to 255, is the number of host bytes between it and the
    2-byte port. *)
Theorem C3_returned_address_shape {R : Type} `{Stream R}
    (r r' : R) (h : Z) (a : SocksAddr) (err : option error) :
  host_end (unread r) = Some h -> h + 2 <= len (unread r) ->
  ReadSocksAddr r = Ret (Some a, err, r') ->
  4 <= len a <= 262 /\
  forall l tl, a = x03 :: l :: tl ->
               0 <= int l <= 255 /\ len tl = int l + 2.
Proof.
  intros Hh Hthere Hret.
  pose proof (host_end_min _ Hh) as Hmin.
  destruct (Z_le_gt_dec (h + 2) maxAddrLen) as [Hfit|Hover].
  - destruct (@ReadSocksAddr_host_read _ _ _ r h Hh ltac:(lia) Hfit)
      as (r1 & E & _).
    rewrite E in Hret. injection Hret as <- _ _.
    assert (Hlen : len (firstn (Z.to_nat (h + 2)) (unread r)) = h + 2)
      by (rewrite len_firstn; lia).
    split; [unfold maxAddrLen in *; lia|].
    intros l tl Ha. split; [apply int_range|].
    rewrite Ha in Hlen. rewrite !len_cons in Hlen.
    destruct (unread r) as [|t [|l' bs]];
      try discriminate; destruct (Z.to_nat (h + 2)) as [|[|n]];
      try discriminate.
    cbn [firstn] in Ha. injection Ha as -> -> _.
    cbn [host_end] in Hh. assert (h = 2 + int l) by congruence. lia.
  - rewrite (@ReadSocksAddr_host_panic _ _ _ r h Hh ltac:(lia) ltac:(lia))
      in Hret.
    discriminate.
Qed.

Lemma C3_witness :
  4 <= len addr_foo_80 <= 262 /\
  forall l tl, addr_foo_80 = x03 :: l :: tl ->
               0 <= int l <= 255 /\ len tl = int l + 2.
Proof.
  apply (@C3_returned_address_shape bytes.Reader _ _
           (bytes.NewReader (addr_foo_80 ++ [x68; x69]))
           {| bytes.s := addr_foo_80 ++ [x68; x69]; bytes.i := 7 |}
           5 addr_foo_80 None).
  - reflexivity.
  - vm_compute. discriminate.
  - vm_compute. reflexivity.
Defined.

(** C4, at the input that breaks it: the serialized address of a domain
    name of 255 bytes, a complete and well-formed address of 259 bytes.
    Host and header fill the 257-byte buffer, [buf[n:n+2]] is out of
    bounds and the call panics.  (Addresses of at most 257 bytes do come
    back unchanged: [ReadSocksAddr_roundtrip].) *)
Theorem C4_domain255_roundtrip_panics :
  is_addr addr_a255_80 /\
  ReadSocksAddr (bytes.NewReader addr_a255_80) =
    Panic "slice bounds out of range".
Proof.
  split.
  - exists 257. split; reflexivity.
  - vm_compute. reflexivity.
Qed.

(** C5: when the first byte of the stream is none of 1, 3 and 4,
    [ReadSocksAddr] returns the error "error socks address" and no
    address, and has taken exactly that one byte from the stream. *)
Theorem C5_invalid_type_consumes_one_byte {R : Type} `{Stream R}
    (r : R) (t : byte) (rest : list byte) :
  unread r = t :: rest -> t <> x01 -> t <> x03 -> t <> x04 ->
  exists r',
    ReadSocksAddr r = Ret (None, Some (errorString "error socks address"), r')
    /\ unread r' = rest /\ endErr r' = endErr r.
Proof.
  intros Hu H1 H3 H4. unfold ReadSocksAddr.
  destruct (ReadSocksAddr_first r Hu) as (r0 & -> & U & Er).
  cbn [bind]. rewrite index_buf_with_0 by len_solve. cbn [bind].
  exists r0. split; [|auto].
  destruct t; try congruence; reflexivity.
Qed.

Lemma C5_witness :
  exists r',
    ReadSocksAddr (bytes.NewReader [x05; x0a; x00]) =
      Ret (None, Some (errorString "error socks address"), r')
    /\ unread r' = [x0a; x00] /\ endErr r' = EOF.
Proof.
  exact (@C5_invalid_type_consumes_one_byte bytes.Reader _ _
           (bytes.NewReader [x05; x0a; x00]) x05 [x0a; x00] eq_refl
           ltac:(discriminate) ltac:(discriminate) ltac:(discriminate)).
Defined.

(** ** Stream framer *)

(** C2 as stated fails: a one-byte payload written with [Write] and read
    back with [Read] into a buffer of exactly one byte is not returned. *)
Lemma C2_counterexample :
  ~ (forall payload : list byte,
       len payload = 0 \/ len payload = 1 \/ len payload = 65533 ->
       forall c1,
         defaultConn_Write (DefaultOutConn fresh) payload
           = (len payload, None, c1) ->
         exists c2,
           defaultConn_Read (DefaultInConn (peer_of (Conn c1)))
                            (make (len payload))
             = Ret (len payload, None, c2, payload)).
Proof.
  intros Hclaim.
  destruct (Hclaim [x61] (or_intror (or_introl eq_refl)) _ eq_refl)
    as (c2 & Hread).
  vm_compute in Hread. discriminate Hread.
Qed.

(** C2, amended: for every payload of at most 65533 bytes (sizes 0, 1 and
    65533 among them), [Write] on a healthy connection succeeds, and [Read]
    at the receiving end, into a buffer of at least 2 bytes that is at
    least as long as the payload, returns the payload's length with a nil
    error and leaves the payload at the front of the buffer, however the
    transport has cut the bytes into segments.  So an exactly-sized
    buffer works for sizes 2 to 65533. *)
Theorem C2_framing_roundtrip (w : net.Conn) (payload b : list byte) :
  net.werr w = None -> net.outbound w = [] ->
  len payload <= MaxPacketSize - 2 ->
  2 <= len b -> len payload <= len b ->
  exists c1,
    defaultConn_Write (DefaultOutConn w) payload = (len payload, None, c1)
    /\ forall rd : net.Conn,
         concat (net.inbound rd) = concat (net.outbound (Conn c1)) ->
         exists c2 b',
           defaultConn_Read (DefaultInConn rd) b
             = Ret (len payload, None, c2, b')
           /\ firstn (length payload) b' = payload
           /\ length b' = length b
           /\ unread (Conn c2) = [].
Proof.
  intros Hw Hfresh Hmax Hb Hfit.
  destruct (@defaultConn_Write_ok (DefaultOutConn w) payload Hw Hmax)
    as (c1 & Hwrite & Hout & _).
  exists c1. split; [exact Hwrite|].
  intros rd Hrd. rewrite Hout in Hrd. cbn [Conn DefaultOutConn] in Hrd.
  rewrite Hfresh in Hrd. cbn [concat app] in Hrd. rewrite app_nil_r in Hrd.
  pose proof (len_nonneg payload) as Hnn.
  assert (Hn : Z.lor (Z.shiftl (int (to_byte (Z.shiftr (len payload) 8))) 8)
                     (int (to_byte (Z.land (len payload) 255)))
               = len payload)
    by (apply prefix_decode; unfold MaxPacketSize in *; lia).
  destruct (@defaultConn_Read_record (DefaultInConn rd) b
              (to_byte (Z.shiftr (len payload) 8))
              (to_byte (Z.land (len payload) 255)) payload)
    as (c2 & Hread & Hu); try (rewrite Hn; lia); [exact Hb | exact Hrd |].
  rewrite Hn in Hread, Hu. unfold len in Hread at 2 3, Hu. 
  rewrite Nat2Z.id in Hread, Hu. rewrite firstn_all in Hread.
  rewrite skipn_all in Hu.
  eexists c2, _. split; [exact Hread|].
  split; [|split; [|exact Hu]].
  - rewrite firstn_app, Nat.sub_diag, firstn_all. cbn [firstn].
    apply app_nil_r.
  - rewrite length_app, length_skipn. cbn [length].
    rewrite length_skipn. unfold len in *. lia.
Qed.

Lemma C2_witness :
  exists c1,
    defaultConn_Write (DefaultOutConn fresh) [x68; x69] = (2, None, c1)
    /\ forall rd : net.Conn,
         concat (net.inbound rd) = concat (net.outbound (Conn c1)) ->
         exists c2 b',
           defaultConn_Read (DefaultInConn rd) (make 2) = Ret (2, None, c2, b')
           /\ firstn 2 b' = [x68; x69]
           /\ length b' = 2%nat
           /\ unread (Conn c2) = [].
Proof.
  exact (@C2_framing_roundtrip fresh [x68; x69] (make 2) eq_refl eq_refl
           ltac:(vm_compute; discriminate) ltac:(vm_compute; discriminate)
           ltac:(vm_compute; discriminate)).
Defined.

(** C6: for a payload of more than [MaxPacketSize - 2] = 65533 bytes,
    [Write] returns the error "over max packet size" and leaves the
    connection as it was: nothing is written to the transport. *)
Theorem C6_oversized_write_rejected (c : defaultConn) (b : list byte) :
  MaxPacketSize - 2 < len b ->
  defaultConn_Write c b = (0, Some (errorString "over max packet size"), c).
Proof.
  intros Hbig. unfold defaultConn_Write.
  destruct (Z.gtb_spec (len b) (MaxPacketSize - 2)); [reflexivity | lia].
Qed.

Lemma C6_witness :
  defaultConn_Write (DefaultOutConn fresh) (make 65534)
    = (0, Some (errorString "over max packet size"), DefaultOutConn fresh).
Proof.
  apply C6_oversized_write_rejected.
  rewrite len_make; unfold MaxPacketSize; lia.
Defined.

(** C7: when the next two bytes of the stream decode, big-endian, to a
    length greater than the caller's buffer, [Read] returns
    [io.ErrShortBuffer], which is neither [io.EOF] nor
    [io.ErrUnexpectedEOF]. *)
Theorem C7_short_buffer (c : defaultConn) (b : list byte)
    (b0 b1 : byte) (rest : list byte) :
  unread (Conn c) = b0 :: b1 :: rest ->
  len b < Z.lor (Z.shiftl (int b0) 8) (int b1) ->
  (exists c' b',
     defaultConn_Read c b = Ret (0, Some ErrShortBuffer, c', b'))
  /\ ErrShortBuffer <> EOF /\ ErrShortBuffer <> ErrUnexpectedEOF.
Proof.
  intros Hu Hsmall.
  split; [exact (defaultConn_Read_short c b Hu Hsmall)|].
  split; discriminate.
Qed.

Lemma C7_witness :
  (exists c' b',
     defaultConn_Read
       (DefaultInConn
          {| net.inbound := [[x00]; [x05; x68; x65]; [x6c; x6c; x6f]];
             net.rerr := EOF; net.outbound := []; net.werr := None |})
       (make 4)
     = Ret (0, Some ErrShortBuffer, c', b'))
  /\ ErrShortBuffer <> EOF /\ ErrShortBuffer <> ErrUnexpectedEOF.
Proof.
  exact (@C7_short_buffer
           (DefaultInConn
              {| net.inbound := [[x00]; [x05; x68; x65]; [x6c; x6c; x6f]];
                 net.rerr := EOF; net.outbound := []; net.werr := None |})
           (make 4) x00 x05 [x68; x65; x6c; x6c; x6f] eq_refl
           ltac:(vm_compute; reflexivity)).
Defined.

(** C8: the client-side [Handshake] with the address 10.0.0.1:53 makes
    one write of the seven bytes 01 0A 00 00 01 00 35 and returns that
    address; the server-side [Handshake] on a stream that starts with those
    seven bytes returns the same address and leaves the stream right
    behind them. *)
Theorem C8_handshake (w rd : net.Conn) (hint : net.Addr) (more : list byte) :
  net.werr w = None ->
  concat (net.inbound rd) = [x01; x0a; x00; x00; x01; x00; x35] ++ more ->
  defaultConn_Handshake (DefaultOutConn w) (net.Socks addr_10_0_0_1_53)
    = Ret (net.Socks addr_10_0_0_1_53, None,
           DefaultOutConn
             {| net.inbound := net.inbound w; net.rerr := net.rerr w;
                net.outbound :=
                  net.outbound w ++ [[x01; x0a; x00; x00; x01; x00; x35]];
                net.werr := net.werr w |})
  /\ exists rd',
       defaultConn_Handshake (DefaultInConn rd) hint
         = Ret (net.Socks addr_10_0_0_1_53, None, DefaultInConn rd')
       /\ concat (net.inbound rd') = more.
Proof.
  intros Hw Hrd. split.
  - unfold defaultConn_Handshake, net.Write. cbn. rewrite Hw. reflexivity.
  - unfold defaultConn_Handshake. cbn [isClient DefaultInConn Conn].
    destruct (@ReadSocksAddr_roundtrip net.Conn _ _ rd addr_10_0_0_1_53 more)
      as (rd' & -> & U & _).
    + exists 5. split; reflexivity.
    + vm_compute. discriminate.
    + exact Hrd.
    + exists rd'. split; [reflexivity | exact U].
Qed.

Lemma C8_witness :
  defaultConn_Handshake (DefaultOutConn fresh) (net.Socks addr_10_0_0_1_53)
    = Ret (net.Socks addr_10_0_0_1_53, None,
           DefaultOutConn
             {| net.inbound := []; net.rerr := EOF;
                net.outbound := [[x01; x0a; x00; x00; x01; x00; x35]];
                net.werr := None |})
  /\ exists rd',
       defaultConn_Handshake
         (DefaultInConn
            {| net.inbound := [[x01; x0a; x00]; [x00; x01; x00; x35]];
               net.rerr := EOF; net.outbound := []; net.werr := None |})
         net.nilAddr
         = Ret (net.Socks addr_10_0_0_1_53, None, DefaultInConn rd')
       /\ concat (net.inbound rd') = [].
Proof.
  exact (@C8_handshake fresh
           {| net.inbound := [[x01; x0a; x00]; [x00; x01; x00; x35]];
              net.rerr := EOF; net.outbound := []; net.werr := None |}
           net.nilAddr [] eq_refl eq_refl).
Defined.

(** C10: with a buffer of length 0 or 1, [Read] returns
    [io.ErrShortBuffer] at once: the connection, and with it the stream
    and any record waiting on it, is untouched, and so is the buffer. *)
Theorem C10_tiny_buffer_rejected_before_reading (c : defaultConn)
    (b : list byte) :
  len b < 2 ->
  defaultConn_Read c b = Ret (0, Some ErrShortBuffer, c, b).
Proof.
  intros Hb. unfold defaultConn_Read.
  destruct (Z.ltb_spec (len b) 2); [reflexivity | lia].
Qed.

Lemma C10_witness :
  defaultConn_Read
    (DefaultInConn
       {| net.inbound := [[x00; x01; x61]]; net.rerr := EOF;
          net.outbound := []; net.werr := None |})
    [x00]
  = Ret (0, Some ErrShortBuffer,
         DefaultInConn
           {| net.inbound := [[x00; x01; x61]]; net.rerr := EOF;
              net.outbound := []; net.werr := None |},
         [x00]).
Proof.
  apply C10_tiny_buffer_rejected_before_reading.
  vm_compute. reflexivity.
Defined.

(** ** Datagram adapter *)

(** The example of C9: 03 03 "foo" 00 50 followed by "hi". *)
Example ReadPacket_foo_hi :
  defaultPacketConn_ReadPacket
    (DefaultPacketConn (socket_with (addr_foo_80 ++ [x68; x69]))) (make 12)
  = Ret (2, net.Socks addr_foo_80, net.Peer "192.0.2.7:4000", None,
         DefaultPacketConn
           {| net.pending := []; net.perr := OpError "i/o timeout";
              net.sent := [] |},
         [x68; x69; x66; x6f; x6f; x00; x50; x68; x69; x00; x00; x00]).
Proof. vm_compute. reflexivity. Qed.

(** C9, at the input that breaks it: a datagram that starts with the
    259-byte address of a 255-byte domain name and goes on with the
    payload "hi".  [ReadPacket] panics inside [ReadSocksAddr], by the same
    defect as in C4.  (For an address of at most 257 bytes the claim
    holds: [defaultPacketConn_ReadPacket_strips].) *)
Theorem C9_domain255_datagram_panics :
  is_addr addr_a255_80 /\
  defaultPacketConn_ReadPacket
    (DefaultPacketConn (socket_with (addr_a255_80 ++ [x68; x69])))
    (make 512)
  = Panic "slice bounds out of range".
Proof.
  split.
  - exists 257. split; reflexivity.
  - vm_compute. reflexivity.
Qed.

(** * Further properties of the code *)

(** ** [ReadSocksAddr] is a function of the stream's bytes *)
Section ParseFunction.

Context {R : Type} `{Stream R}.

Lemma ReadSocksAddr_other_tag (r : R) (t : byte) (rest : list byte) :
  unread r = t :: rest -> t <> x01 -> t <> x03 -> t <> x04 ->
  exists r',
    ReadSocksAddr r = Ret (None, Some (errorString "error socks address"), r')
    /\ unread r' = rest /\ endErr r' = endErr r.
Proof.
  intros Hu H1 H3 H4. unfold ReadSocksAddr.
  destruct (ReadSocksAddr_first r Hu) as (r0 & -> & U & Er).
  cbn [bind]. rewrite index_buf_with_0 by len_solve. cbn [bind].
  exists r0. split; [|auto].
  destruct t; try congruence; reflexivity.
Qed.

Lemma observe_Ret (A : Type) (a : A) (r : R) :
  observe (Ret (a, r)) = Ret (a, unread r, endErr r).
Proof. reflexivity. Qed.

Lemma ReadSocksAddr_after_host (r : R) (hdr : list byte) (hlen : Z)
    (rest : list byte) :
  (hdr = [x01] /\ hlen = 4) \/ (hdr = [x04] /\ hlen = 16)
  \/ (exists l, hdr = [x03; l] /\ hlen = int l) ->
  unread r = hdr ++ rest ->
  observe (ReadSocksAddr r) = after_host (endErr r) hdr hlen rest.
Proof.
  intros Hhdr Hu. unfold after_host.
  destruct (Z.ltb_spec (len rest) hlen) as [Hshort|Hthere].
  - destruct Hhdr as [[-> ->]|[[-> ->]|(l & -> & ->)]].
    + destruct (@ReadSocksAddr_ip_short _ _ _ r x01 rest 4 Hu)
        as (r' & -> & U & Er); auto.
      rewrite observe_Ret, U, Er. reflexivity.
    + destruct (@ReadSocksAddr_ip_short _ _ _ r x04 rest 16 Hu)
        as (r' & -> & U & Er); auto.
      rewrite observe_Ret, U, Er. reflexivity.
    + destruct (@ReadSocksAddr_domain_short _ _ _ r l rest Hu Hshort)
        as (r' & -> & U & Er).
      rewrite observe_Ret, U, Er. reflexivity.
  - destruct Hhdr as [[-> ->]|[[-> ->]|(l & -> & ->)]].
    + destruct (@ReadSocksAddr_ip _ _ _ r x01 rest 4 Hu)
        as (r' & -> & U & Er); auto.
      rewrite observe_Ret, U, Er. reflexivity.
    + destruct (@ReadSocksAddr_ip _ _ _ r x04 rest 16 Hu)
        as (r' & -> & U & Er); auto.
      rewrite observe_Ret, U, Er. reflexivity.
    + pose proof (int_range l).
      change (len [x03; l]) with 2.
      destruct (Z.leb_spec (2 + int l + 2) maxAddrLen) as [Hfit|Hover].
      * destruct (@ReadSocksAddr_domain _ _ _ r l rest Hu Hthere Hfit)
          as (r' & -> & U & Er).
        rewrite observe_Ret, U, Er. reflexivity.
      * rewrite (@ReadSocksAddr_domain_panic _ _ _ r l rest Hu Hthere Hover).
        reflexivity.
Qed.

(** The whole of [ReadSocksAddr], whatever the reader. *)
Lemma ReadSocksAddr_parse_bytes (r : R) :
  observe (ReadSocksAddr r) = parse_bytes (endErr r) (unread r).
Proof.
  destruct (unread r) as [|t rest] eqn:Hu.
  - destruct (ReadSocksAddr_empty r Hu) as (r' & -> & U & Er).
    rewrite observe_Ret, U, Er. reflexivity.
  - assert (Hother : t <> x01 -> t <> x03 -> t <> x04 ->
              observe (ReadSocksAddr r) =
              Ret (None, Some (errorString "error socks address"), rest,
                   endErr r)).
    { intros H1 H3 H4.
      destruct (ReadSocksAddr_other_tag r Hu H1 H3 H4) as (r' & -> & U & Er).
      rewrite observe_Ret, U, Er. reflexivity. }
    destruct t;
      try (rewrite Hother by discriminate; reflexivity); cbn [parse_bytes].
    + apply ReadSocksAddr_after_host; auto.
    + destruct rest as [|l rest'].
      * destruct (ReadSocksAddr_domain_no_length r Hu) as (r' & -> & U & Er).
        rewrite observe_Ret, U, Er. reflexivity.
      * apply ReadSocksAddr_after_host; [|exact Hu]. eauto.
    + apply ReadSocksAddr_after_host; auto.
Qed.

End ParseFunction.

Section ParseShape.

Lemma short_err_cases (e : error) (d : list byte) :
  short_err e d = e \/ short_err e d = ErrUnexpectedEOF.
Proof. destruct d; destruct e; cbn; auto. Qed.

Lemma after_host_address (e e' : error) (hdr rest rest' : list byte)
    (hlen : Z) (a : SocksAddr) (err : option error) :
  0 <= hlen ->
  after_host e hdr hlen rest = Ret (Some a, err, rest', e') ->
  err = None /\ hdr ++ rest = a ++ rest'
  /\ len hdr + hlen <= len a <= maxAddrLen /\ e' = e.
Proof.
  intros Hh. unfold after_host.
  destruct (Z.ltb_spec (len rest) hlen); [discriminate|].
  destruct (Z.leb_spec (len hdr + hlen + 2) maxAddrLen); [|discriminate].
  intros Hret. injection Hret as <- <- <- <-.
  split; [reflexivity|]. split.
  - rewrite <- app_assoc, firstn_skipn. reflexivity.
  - rewrite len_app, len_firstn. split; [lia | reflexivity].
Qed.

Lemma after_host_error (e e' : error) (hdr rest rest' : list byte)
    (hlen : Z) (err : option error) :
  after_host e hdr hlen rest = Ret (None, err, rest', e') ->
  exists x, err = Some x /\ (x = e \/ x = ErrUnexpectedEOF) /\ rest' = [].
Proof.
  unfold after_host.
  destruct (Z.ltb_spec (len rest) hlen).
  - intros Hret. injection Hret as <- <- <-.
    eexists. split; [reflexivity|]. split; [apply short_err_cases | reflexivity].
  - destruct (Z.leb_spec (len hdr + hlen + 2) maxAddrLen); discriminate.
Qed.

Lemma after_host_panic (e : error) (hdr rest : list byte) (hlen : Z)
    (msg : string) :
  after_host e hdr hlen rest = Panic msg ->
  hlen <= len rest /\ maxAddrLen < len hdr + hlen + 2.
Proof.
  unfold after_host.
  destruct (Z.ltb_spec (len rest) hlen); [discriminate|].
  destruct (Z.leb_spec (len hdr + hlen + 2) maxAddrLen); [discriminate|].
  intros _. lia.
Qed.

Lemma parse_bytes_address (e e' : error) (bs rest : list byte)
    (a : SocksAddr) (err : option error) :
  parse_bytes e bs = Ret (Some a, err, rest, e') ->
  err = None /\ bs = a ++ rest /\ 2 <= len a <= maxAddrLen /\ e' = e.
Proof.
  destruct bs as [|t bs]; [discriminate|].
  destruct t; try discriminate; cbn [parse_bytes].
  - intros Hret. apply after_host_address in Hret; [|lia].
    change (len [x01]) with 1 in Hret.
    destruct Hret as (? & ? & ? & ?). repeat split; auto; lia.
  - destruct bs as [|l bs]; [discriminate|].
    pose proof (int_range l).
    intros Hret. apply after_host_address in Hret; [|lia].
    change (len [x03; l]) with 2 in Hret.
    destruct Hret as (? & ? & ? & ?). repeat split; auto; lia.
  - intros Hret. apply after_host_address in Hret; [|lia].
    change (len [x04]) with 1 in Hret.
    destruct Hret as (? & ? & ? & ?). repeat split; auto; lia.
Qed.

Lemma parse_bytes_error (e e' : error) (bs rest : list byte)
    (err : option error) :
  parse_bytes e bs = Ret (None, err, rest, e') ->
  exists x,
    err = Some x /\
    ((x = errorString "error socks address" /\ exists t, bs = t :: rest)
     \/ ((x = e \/ x = ErrUnexpectedEOF) /\ rest = [])).
Proof.
  destruct bs as [|t bs].
  - intros Hret. injection Hret as <- <- <-. eauto 6.
  - assert (Hother :
      Ret (@None SocksAddr, Some (errorString "error socks address"), bs, e)
        = Ret (None, err, rest, e') ->
      exists x,
        err = Some x /\
        ((x = errorString "error socks address"
          /\ exists t0, t :: bs = t0 :: rest)
         \/ ((x = e \/ x = ErrUnexpectedEOF) /\ rest = []))).
    { intros Hret. injection Hret as <- <- <-. eauto 7. }
    destruct t; try exact Hother; cbn [parse_bytes]; clear Hother.
    + intros Hret. apply after_host_error in Hret.
      destruct Hret as (x & -> & Hx & ->). eauto 6.
    + destruct bs as [|l bs].
      * intros Hret. injection Hret as <- <- <-. eauto 6.
      * intros Hret. apply after_host_error in Hret.
        destruct Hret as (x & -> & Hx & ->). eauto 6.
    + intros Hret. apply after_host_error in Hret.
      destruct Hret as (x & -> & Hx & ->). eauto 6.
Qed.

Lemma parse_bytes_panic (e : error) (bs : list byte) (msg : string) :
  parse_bytes e bs = Panic msg ->
  exists l rest, bs = x03 :: l :: rest /\ 254 <= int l <= len rest.
Proof.
  destruct bs as [|t bs]; [discriminate|].
  destruct t; try discriminate; cbn [parse_bytes].
  - intros Hp. apply after_host_panic in Hp.
    change (len [x01]) with 1 in Hp. unfold maxAddrLen in Hp. lia.
  - destruct bs as [|l bs]; [discriminate|].
    intros Hp. apply after_host_panic in Hp.
    change (len [x03; l]) with 2 in Hp. unfold maxAddrLen in Hp.
    exists l, bs. split; [reflexivity | lia].
  - intros Hp. apply after_host_panic in Hp.
    change (len [x04]) with 1 in Hp. unfold maxAddrLen in Hp. lia.
Qed.

Lemma parse_bytes_no_stall (e : error) (bs : list byte) :
  parse_bytes e bs <> Stall.
Proof.
  destruct bs as [|t bs]; [discriminate|].
  assert (Hah : forall hdr hlen rest, after_host e hdr hlen rest <> Stall).
  { intros hdr hlen rest. unfold after_host.
    destruct (len rest <? hlen); [discriminate|].
    destruct (len hdr + hlen + 2 <=? maxAddrLen); discriminate. }
  destruct t; try discriminate; cbn [parse_bytes]; try apply Hah.
  destruct bs; [discriminate | apply Hah].
Qed.

End ParseShape.

(** X1: a complete address of at most 257 bytes, followed on the stream
    by anything, is returned as it is with a nil error, and the stream is
    left right behind it. *)
Theorem X1_complete_address_is_read_back {R : Type} `{Stream R}
    (r : R) (a more : list byte) :
  is_addr a -> len a <= maxAddrLen -> unread r = a ++ more ->
  exists r',
    ReadSocksAddr r = Ret (Some a, None, r')
    /\ unread r' = more /\ endErr r' = endErr r.
Proof. apply ReadSocksAddr_roundtrip. Qed.

Lemma X1_witness :
  exists r',
    ReadSocksAddr
      {| net.inbound := [[x03; x03; x66]; [x6f; x6f; x00; x50; x68]; [x69]];
         net.rerr := EOF; net.outbound := []; net.werr := None |}
      = Ret (Some addr_foo_80, None, r')
    /\ unread r' = [x68; x69] /\ endErr r' = EOF.
Proof.
  exact (@X1_complete_address_is_read_back net.Conn _ _
           {| net.inbound := [[x03; x03; x66]; [x6f; x6f; x00; x50; x68]; [x69]];
              net.rerr := EOF; net.outbound := []; net.werr := None |}
           addr_foo_80 [x68; x69]
           (ex_intro _ 5 (conj eq_refl eq_refl))
           ltac:(vm_compute; discriminate) eq_refl).
Defined.

(** X2: when the stream ends before the host field of an address is
    complete (inside the header or inside the host), [ReadSocksAddr]
    returns no address and the error of the read that came up short: the
    stream's own final error or [io.ErrUnexpectedEOF]. *)
Theorem X2_truncated_before_port_fails {R : Type} `{Stream R}
    (r : R) (a : list byte) (h : Z) (k : nat) :
  host_end a = Some h -> Z.of_nat k < h -> unread r = firstn k a ->
  exists e r',
    ReadSocksAddr r = Ret (None, Some e, r')
    /\ (e = endErr r \/ e = ErrUnexpectedEOF).
Proof. apply ReadSocksAddr_truncated_host. Qed.

Lemma X2_witness :
  exists e r',
    ReadSocksAddr (bytes.NewReader [x03; x03; x66; x6f]) =
      Ret (None, Some e, r')
    /\ (e = EOF \/ e = ErrUnexpectedEOF).
Proof.
  exact (@X2_truncated_before_port_fails bytes.Reader _ _
           (bytes.NewReader [x03; x03; x66; x6f]) addr_foo_80 5 4
           eq_refl ltac:(vm_compute; reflexivity) eq_refl).
Defined.

(** X3: the address, the error and the bytes left unread depend only on
    the bytes of the stream and its final error, not on the reader or on
    how the transport has cut the bytes into segments. *)
Theorem X3_parse_independent_of_segmentation
    {R1 : Type} `{Stream R1} {R2 : Type} `{Stream R2} (r1 : R1) (r2 : R2) :
  unread r1 = unread r2 -> endErr r1 = endErr r2 ->
  observe (ReadSocksAddr r1) = observe (ReadSocksAddr r2).
Proof.
  intros Hu He. rewrite !ReadSocksAddr_parse_bytes, Hu, He. reflexivity.
Qed.

Lemma X3_witness :
  observe
    (ReadSocksAddr
       {| net.inbound := [[x03]; []; [x03; x66; x6f]; [x6f; x00]; [x50; x68]];
          net.rerr := EOF; net.outbound := []; net.werr := None |})
  = observe
      (ReadSocksAddr (bytes.NewReader (addr_foo_80 ++ [x68]))).
Proof.
  exact (@X3_parse_independent_of_segmentation net.Conn _ _ bytes.Reader _ _
           {| net.inbound := [[x03]; []; [x03; x66; x6f]; [x6f; x00]; [x50; x68]];
              net.rerr := EOF; net.outbound := []; net.werr := None |}
           (bytes.NewReader (addr_foo_80 ++ [x68])) eq_refl eq_refl).
Defined.

(** X4: whenever [ReadSocksAddr] returns an address, the error is nil,
    the address is exactly the bytes taken from the stream, and it has
    between 2 and [maxAddrLen] = 257 bytes. *)
Theorem X4_returned_address_is_what_was_consumed {R : Type} `{Stream R}
    (r r' : R) (a : SocksAddr) (err : option error) :
  ReadSocksAddr r = Ret (Some a, err, r') ->
  err = None /\ unread r = a ++ unread r'
  /\ 2 <= len a <= maxAddrLen /\ endErr r' = endErr r.
Proof.
  intros Hret. pose proof (ReadSocksAddr_parse_bytes r) as Hfn.
  rewrite Hret, observe_Ret in Hfn. symmetry in Hfn.
  apply parse_bytes_address in Hfn. exact Hfn.
Qed.

Lemma X4_witness :
  @None error = None
  /\ addr_10_0_0_1_53 ++ [x00; x02; x68; x69]
     = addr_10_0_0_1_53 ++ [x00; x02; x68; x69]
  /\ 2 <= len addr_10_0_0_1_53 <= maxAddrLen /\ EOF = EOF.
Proof.
  exact (@X4_returned_address_is_what_was_consumed bytes.Reader _ _
           (bytes.NewReader (addr_10_0_0_1_53 ++ [x00; x02; x68; x69]))
           {| bytes.s := addr_10_0_0_1_53 ++ [x00; x02; x68; x69];
              bytes.i := 7 |}
           addr_10_0_0_1_53 None eq_refl).
Defined.

(** X5: whenever [ReadSocksAddr] returns no address it returns an error,
    and either that error is "error socks address" and exactly the type
    byte has been taken from the stream, or it is the error of a short
    read (the stream's final error or [io.ErrUnexpectedEOF]) and the
    stream has been read to its end. *)
Theorem X5_failure_modes {R : Type} `{Stream R}
    (r r' : R) (err : option error) :
  ReadSocksAddr r = Ret (None, err, r') ->
  exists x,
    err = Some x /\
    ((x = errorString "error socks address"
      /\ exists t, unread r = t :: unread r')
     \/ ((x = endErr r \/ x = ErrUnexpectedEOF) /\ unread r' = [])).
Proof.
  intros Hret. pose proof (ReadSocksAddr_parse_bytes r) as Hfn.
  rewrite Hret, observe_Ret in Hfn. symmetry in Hfn.
  apply parse_bytes_error in Hfn. exact Hfn.
Qed.

Lemma X5_witness :
  exists x,
    Some ErrUnexpectedEOF = Some x /\
    ((x = errorString "error socks address"
      /\ exists t, [x04; x20; x01] = t :: [])
     \/ ((x = EOF \/ x = ErrUnexpectedEOF) /\ @nil byte = [])).
Proof.
  exact (@X5_failure_modes bytes.Reader _ _
           (bytes.NewReader [x04; x20; x01])
           {| bytes.s := [x04; x20; x01]; bytes.i := 3 |}
           (Some ErrUnexpectedEOF) eq_refl).
Defined.

(** X6: [ReadSocksAddr] returns (it neither panics nor loops) on every
    stream except one that announces a domain name of 254 or 255 bytes
    and delivers it. *)
Theorem X6_returns_unless_long_domain {R : Type} `{Stream R} (r : R) :
  (forall l rest, unread r = x03 :: l :: rest ->
                  int l <= 253 \/ len rest < int l) ->
  exists res, ReadSocksAddr r = Ret res.
Proof.
  intros Hsafe. pose proof (ReadSocksAddr_parse_bytes r) as Hfn.
  destruct (ReadSocksAddr r) as [res|msg|] eqn:E.
  - eauto.
  - cbn in Hfn. symmetry in Hfn. apply parse_bytes_panic in Hfn.
    destruct Hfn as (l & rest & Hu & Hl).
    destruct (Hsafe l rest Hu); lia.
  - cbn in Hfn. symmetry in Hfn. apply parse_bytes_no_stall in Hfn.
    contradiction.
Qed.

Lemma X6_witness :
  exists res,
    ReadSocksAddr (bytes.NewReader (x03 :: xff :: repeat x61 200)) = Ret res.
Proof.
  apply (@X6_returns_unless_long_domain bytes.Reader _ _
           (bytes.NewReader (x03 :: xff :: repeat x61 200))).
  intros l rest Hu. injection Hu as <- <-. right.
  vm_compute. reflexivity.
Defined.

(** ** [String] *)
Section RenderingFacts.

Lemma slice_app_mid (pre mid post : list byte) (lo hi : Z) :
  lo = len pre -> hi = lo + len mid ->
  slice (pre ++ mid ++ post) lo hi = Ret mid.
Proof.
  intros -> ->. rewrite slice_ok.
  - replace (Z.to_nat (len pre + len mid - len pre)) with (length mid)
      by (unfold len; lia).
    unfold len at 1. rewrite Nat2Z.id, skipn_app, skipn_all, Nat.sub_diag.
    cbn [skipn app]. rewrite firstn_app, Nat.sub_diag, firstn_all.
    cbn [firstn]. rewrite app_nil_r. reflexivity.
  - unfold len. lia.
  - rewrite !len_app. unfold len. lia.
Qed.

(** The big-endian value of two bytes. *)
Lemma be16_value (hi lo : Z) :
  0 <= lo < 256 -> Z.lor (Z.shiftl hi 8) lo = hi * 256 + lo.
Proof.
  intros Hlo. pose proof (Z.add_lor_land (Z.shiftl hi 8) lo) as Hadd.
  assert (Hland : Z.land (Z.shiftl hi 8) lo = 0).
  { apply Z.bits_inj'. intros i Hi.
    rewrite Z.land_spec, Z.bits_0.
    destruct (Z.lt_ge_cases i 8) as [Hlow|Hhigh].
    - rewrite Z.shiftl_spec_low by lia. reflexivity.
    - rewrite <- (Z.mod_small lo (2 ^ 8)) by (change (2 ^ 8) with 256; lia).
      rewrite Z.mod_pow2_bits_high by lia. apply andb_false_r. }
  rewrite Hland in Hadd. rewrite Z.shiftl_mul_pow2 in Hadd at 2 by lia.
  change (2 ^ 8) with 256 in Hadd. lia.
Qed.

(** The last statements of [String]: the port is read off the last two
    bytes. *)
Lemma String_port (pre : list byte) (p0 p1 : byte) (host : gostring) :
  (buf <- slice (pre ++ [p0; p1]) (len (pre ++ [p0; p1]) - 2)
                (len (pre ++ [p0; p1])) ;;
   b0 <- index buf 0 ;;
   b1 <- index buf 1 ;;
   let port := Itoa (Z.lor (Z.shiftl (int b0) 8) (int b1)) in
   Ret (JoinHostPort host port))
  = Ret (JoinHostPort host (Itoa (int p0 * 256 + int p1))).
Proof.
  rewrite <- (app_nil_r [p0; p1]) at 1.
  rewrite (@slice_app_mid pre [p0; p1] [])
    by (rewrite ?len_app; unfold len; cbn [length]; lia).
  cbn [bind]. rewrite index_cons_0, index_cons_1. cbn [bind].
  rewrite be16_value by (pose proof (int_range p1); lia). reflexivity.
Qed.

End RenderingFacts.

Section Renderable.

Variable IP_String : list byte -> gostring.

Lemma slice_last_two (a : list byte) :
  2 <= len a ->
  exists b0 b1, slice a (len a - 2) (len a) = Ret [b0; b1].
Proof.
  intros Ha. rewrite slice_ok by lia.
  replace (Z.to_nat (len a - (len a - 2))) with 2%nat by lia.
  assert (Hl : length (firstn 2 (skipn (Z.to_nat (len a - 2)) a)) = 2%nat)
    by (rewrite length_firstn, length_skipn; unfold len in *; lia).
  destruct (firstn 2 (skipn (Z.to_nat (len a - 2)) a))
    as [|b0 [|b1 [|b2 tl]]]; try discriminate.
  eauto.
Qed.

Lemma slice_returns (a : list byte) (lo hi : Z) :
  0 <= lo <= hi -> hi <= len a -> exists d, slice a lo hi = Ret d.
Proof. intros Hlo Hhi. rewrite slice_ok by assumption. eauto. Qed.

(** [String] returns on every address that holds its header and host. *)
Lemma String_returns (a : SocksAddr) (h : Z) :
  host_end a = Some h -> h <= len a ->
  exists s, SocksAddr_String IP_String a = Ret s.
Proof.
  intros Hh Hlen. pose proof (host_end_min _ Hh) as Hmin.
  destruct (slice_last_two a ltac:(lia)) as (b0 & b1 & Hport).
  unfold SocksAddr_String. rewrite Hport.
  destruct a as [|t a]; [discriminate|].
  rewrite index_cons_0. cbn [bind].
  destruct t; try discriminate; cbn [host_end] in Hh.
  - assert (h = 1 + 4) as -> by congruence.
    destruct (@slice_returns (x01 :: a) 1 (1 + 4)) as (d & ->); try lia.
    cbn [bind]. rewrite index_cons_0, index_cons_1. cbn [bind]. eauto.
  - destruct a as [|l a]; [discriminate|].
    assert (h = 2 + int l) as -> by congruence.
    rewrite index_cons_1. cbn [bind].
    destruct (@slice_returns (x03 :: l :: a) 2 (2 + int l)) as (d & ->);
      try lia.
    cbn [bind]. rewrite index_cons_0, index_cons_1. cbn [bind]. eauto.
  - assert (h = 1 + 16) as -> by congruence.
    destruct (@slice_returns (x04 :: a) 1 (1 + 16)) as (d & ->); try lia.
    cbn [bind]. rewrite index_cons_0, index_cons_1. cbn [bind]. eauto.
Qed.

Lemma after_host_renderable (e e' : error) (hdr rest rest' : list byte)
    (hlen : Z) (a : SocksAddr) (err : option error) :
  0 <= hlen ->
  after_host e hdr hlen rest = Ret (Some a, err, rest', e') ->
  exists tl, a = hdr ++ tl /\ hlen <= len tl.
Proof.
  intros Hh. unfold after_host.
  destruct (Z.ltb_spec (len rest) hlen); [discriminate|].
  destruct (Z.leb_spec (len hdr + hlen + 2) maxAddrLen); [|discriminate].
  intros Hret. injection Hret as <- _ _ _.
  eexists. split; [reflexivity|]. rewrite len_firstn. lia.
Qed.

Lemma parse_bytes_renderable (e e' : error) (bs rest : list byte)
    (a : SocksAddr) (err : option error) :
  parse_bytes e bs = Ret (Some a, err, rest, e') ->
  exists h, host_end a = Some h /\ h <= len a.
Proof.
  destruct bs as [|t bs]; [discriminate|].
  destruct t; try discriminate; cbn [parse_bytes].
  - intros Hret. apply after_host_renderable in Hret; [|lia].
    destruct Hret as (tl & -> & Htl).
    exists (1 + 4). split; [reflexivity|]. cbn [app]. rewrite len_cons. lia.
  - destruct bs as [|l bs]; [discriminate|]. pose proof (int_range l).
    intros Hret. apply after_host_renderable in Hret; [|lia].
    destruct Hret as (tl & -> & Htl).
    exists (2 + int l). split; [reflexivity|].
    cbn [app]. rewrite !len_cons. lia.
  - intros Hret. apply after_host_renderable in Hret; [|lia].
    destruct Hret as (tl & -> & Htl).
    exists (1 + 16). split; [reflexivity|]. cbn [app]. rewrite len_cons. lia.
Qed.

End Renderable.

(** X7: [String] never panics on an address that [ReadSocksAddr] has
    returned, whatever the reader and however [net.IP] renders the host
    bytes. *)
Theorem X7_String_returns_on_parsed_address
    (IP_String : list byte -> gostring) {R : Type} `{Stream R}
    (r r' : R) (a : SocksAddr) (err : option error) :
  ReadSocksAddr r = Ret (Some a, err, r') ->
  exists s, SocksAddr_String IP_String a = Ret s.
Proof.
  intros Hret. pose proof (ReadSocksAddr_parse_bytes r) as Hfn.
  rewrite Hret, observe_Ret in Hfn. symmetry in Hfn.
  apply parse_bytes_renderable in Hfn. destruct Hfn as (h & Hh & Hlen).
  exact (String_returns IP_String a Hh Hlen).
Qed.

Lemma X7_witness :
  exists s, SocksAddr_String (fun _ => []) addr_foo_80 = Ret s.
Proof.
  exact (@X7_String_returns_on_parsed_address (fun _ => []) bytes.Reader _ _
           (bytes.NewReader addr_foo_80)
           {| bytes.s := addr_foo_80; bytes.i := 7 |}
           addr_foo_80 None eq_refl).
Defined.

(** X8: for a domain-name address made of the type byte 3, a length byte
    equal to the length of the host, the host and two port bytes,
    [String] is [net.JoinHostPort] of the host bytes as they are and the
    port in decimal, the port being the big-endian value of the last two
    bytes. *)
Theorem X8_String_of_domain_address (IP_String : list byte -> gostring)
    (l : byte) (host : list byte) (p0 p1 : byte) :
  int l = len host ->
  SocksAddr_String IP_String (x03 :: l :: host ++ [p0; p1])
  = Ret (JoinHostPort host (Itoa (int p0 * 256 + int p1))).
Proof.
  intros Hl. unfold SocksAddr_String.
  rewrite index_cons_0. cbn [bind]. rewrite index_cons_1. cbn [bind].
  rewrite (@slice_app_mid [x03; l] host [p0; p1])
    by (try reflexivity; rewrite Hl; reflexivity).
  cbn [bind].
  apply (String_port (x03 :: l :: host) p0 p1 host).
Qed.

Lemma X8_witness :
  SocksAddr_String (fun _ => []) addr_foo_80
  = Ret (list_byte_of_string "foo:80").
Proof.
  exact (@X8_String_of_domain_address (fun _ => []) x03
           [x66; x6f; x6f] x00 x50 eq_refl).
Defined.

(** X9: for an IPv4 or IPv6 address made of the type byte, 4 or 16 host
    bytes and two port bytes, [String] is [net.JoinHostPort] of the text
    [net.IP] gives for exactly those host bytes and the port in decimal. *)
Theorem X9_String_of_ip_address (IP_String : list byte -> gostring)
    (t : byte) (ip : list byte) (p0 p1 : byte) :
  (t = x01 /\ len ip = 4) \/ (t = x04 /\ len ip = 16) ->
  SocksAddr_String IP_String (t :: ip ++ [p0; p1])
  = Ret (JoinHostPort (IP_String ip) (Itoa (int p0 * 256 + int p1))).
Proof.
  intros Ht. unfold SocksAddr_String.
  rewrite index_cons_0. cbn [bind].
  destruct Ht as [[-> Hip]|[-> Hip]].
  - rewrite (@slice_app_mid [x01] ip [p0; p1])
      by (try reflexivity; rewrite Hip; reflexivity).
    cbn [bind]. apply (String_port (x01 :: ip) p0 p1 (IP_String ip)).
  - rewrite (@slice_app_mid [x04] ip [p0; p1])
      by (try reflexivity; rewrite Hip; reflexivity).
    cbn [bind]. apply (String_port (x04 :: ip) p0 p1 (IP_String ip)).
Qed.

Lemma X9_witness :
  SocksAddr_String (fun ip => ip) addr_10_0_0_1_53
  = Ret (JoinHostPort [x0a; x00; x00; x01] (list_byte_of_string "53")).
Proof.
  exact (@X9_String_of_ip_address (fun ip => ip) x01
           [x0a; x00; x00; x01] x00 x35 (or_introl (conj eq_refl eq_refl))).
Defined.

(** ** [defaultConn.Read], case by case *)
Section ReadCases.

Lemma store_nil (b : list byte) : store b 0 [] = b.
Proof. reflexivity. Qed.

Lemma length_store_front (b d : list byte) :
  (length d <= length b)%nat -> length (d ++ skipn (length d) b) = length b.
Proof. intros Hd. rewrite length_app, length_skipn. lia. Qed.

(** The stream ends right at a record boundary. *)
Lemma defaultConn_Read_at_end (c : defaultConn) (b : list byte) :
  2 <= len b -> unread (Conn c) = [] ->
  exists c',
    defaultConn_Read c b = Ret (0, Some (endErr (Conn c)), c', b)
    /\ unread (Conn c') = [].
Proof.
  intros Hb Hu. unfold defaultConn_Read.
  destruct (Z.ltb_spec (len b) 2); [lia|].
  destruct (ReadFull_stream (Conn c) b (lo:=0) (hi:=2))
    as (conn & E & U & _); [lia | lia |].
  rewrite E, Hu in *. cbn [bind firstn short_err].
  rewrite skipn_nil in U.
  eexists. split; [reflexivity | exact U].
Qed.

(** The stream ends inside the length prefix. *)
Lemma defaultConn_Read_half_prefix (c : defaultConn) (b : list byte)
    (b0 : byte) :
  2 <= len b -> unread (Conn c) = [b0] ->
  exists c',
    defaultConn_Read c b =
      Ret (0, Some (short_err (endErr (Conn c)) [b0]), c', b0 :: skipn 1 b)
    /\ unread (Conn c') = [].
Proof.
  intros Hb Hu. unfold defaultConn_Read.
  destruct (Z.ltb_spec (len b) 2); [lia|].
  destruct (ReadFull_stream (Conn c) b (lo:=0) (hi:=2))
    as (conn & E & U & _); [lia | lia |].
  rewrite E, Hu in *. cbn [bind].
  eexists. split; [reflexivity | exact U].
Qed.

(** The buffer is too small for the record announced: the prefix has
    been taken from the stream and sits in [b[:2]], the payload is still
    on the stream. *)
Lemma defaultConn_Read_too_small (c : defaultConn) (b : list byte)
    (b0 b1 : byte) (rest : list byte) :
  2 <= len b -> unread (Conn c) = b0 :: b1 :: rest ->
  len b < Z.lor (Z.shiftl (int b0) 8) (int b1) ->
  exists c',
    defaultConn_Read c b =
      Ret (0, Some ErrShortBuffer, c', b0 :: b1 :: skipn 2 b)
    /\ unread (Conn c') = rest.
Proof.
  intros Hb Hu Hsmall. unfold defaultConn_Read.
  destruct (Z.ltb_spec (len b) 2); [lia|].
  destruct (defaultConn_Read_prefix c b Hb Hu) as (conn & -> & U).
  cbn [bind]. rewrite index_cons_0, index_cons_1. cbn [bind].
  assert (Hlen : len (b0 :: b1 :: skipn 2 b) = len b).
  { rewrite !len_cons. change 2%nat with (Z.to_nat 2).
    rewrite len_skipn. lia. }
  rewrite Hlen.
  destruct (Z.ltb_spec (len b) (Z.lor (Z.shiftl (int b0) 8) (int b1)));
    [|lia].
  eexists. split; [reflexivity | exact U].
Qed.

(** The stream ends inside the payload: the bytes that did arrive are in
    the buffer and their number is returned with the error. *)
Lemma defaultConn_Read_cut_payload (c : defaultConn) (b : list byte)
    (b0 b1 : byte) (rest : list byte) :
  let n := Z.lor (Z.shiftl (int b0) 8) (int b1) in
  2 <= len b -> unread (Conn c) = b0 :: b1 :: rest ->
  n <= len b -> len rest < n ->
  exists c',
    defaultConn_Read c b =
      Ret (len rest, Some (short_err (endErr (Conn c)) rest), c',
           rest ++ skipn (length rest) (b0 :: b1 :: skipn 2 b))
    /\ unread (Conn c') = [].
Proof.
  intros n Hb Hu Hfit Hcut.
  unfold defaultConn_Read.
  destruct (Z.ltb_spec (len b) 2); [lia|].
  destruct (ReadFull_stream (Conn c) b (lo:=0) (hi:=2))
    as (conn & E & U & Er); [lia | lia |].
  rewrite E, Hu in *. clear E.
  destruct (Z.leb_spec (2 - 0) (len (b0 :: b1 :: rest)));
    [|rewrite !len_cons in *; pose proof (len_nonneg rest); lia].
  change (Z.to_nat (2 - 0)) with 2%nat in *. cbn [firstn skipn] in *.
  cbn [bind]. rewrite store_front. cbn [length app].
  rewrite index_cons_0, index_cons_1. cbn [bind]. fold n.
  assert (Hlen : len (b0 :: b1 :: skipn 2 b) = len b).
  { rewrite !len_cons. change 2%nat with (Z.to_nat 2).
    rewrite len_skipn. lia. }
  rewrite Hlen.
  destruct (Z.ltb_spec (len b) n); [lia|].
  cbn [Conn with_Conn].
  destruct (ReadFull_stream conn (b0 :: b1 :: skipn 2 b) (lo:=0) (hi:=n))
    as (conn' & E & U' & _); [pose proof (len_nonneg rest); lia | lia |].
  rewrite E, U, Z.sub_0_r in *. cbn [bind].
  destruct (Z.leb_spec n (len rest)); [lia|].
  rewrite firstn_all2 by (unfold len in *; lia).
  rewrite skipn_all2 in U' by (unfold len in *; lia).
  rewrite store_front, Er.
  eexists. split; [reflexivity | exact U'].
Qed.

End ReadCases.

Section ReadShape.

Lemma len_prefixed (b : list byte) (b0 b1 : byte) :
  2 <= len b -> length (b0 :: b1 :: skipn 2 b) = length b.
Proof.
  intros Hb. cbn [length]. rewrite length_skipn. unfold len in *. lia.
Qed.

(** Every call of [Read] falls under one of six cases. *)
Lemma defaultConn_Read_cases (c : defaultConn) (b : list byte) :
  exists n err c' b',
    defaultConn_Read c b = Ret (n, err, c', b')
    /\ 0 <= n <= len b /\ n <= 65535 /\ length b' = length b
    /\ (err = None ->
        exists p0 p1,
          unread (Conn c)
            = p0 :: p1 :: firstn (Z.to_nat n) b' ++ unread (Conn c')
          /\ n = Z.lor (Z.shiftl (int p0) 8) (int p1)).
Proof.
  pose proof (len_nonneg b) as Hnn.
  destruct (Z.lt_ge_cases (len b) 2) as [Htiny|Hb].
  { exists 0, (Some ErrShortBuffer), c, b. unfold defaultConn_Read.
    destruct (Z.ltb_spec (len b) 2); [|lia].
    repeat split; try lia. discriminate. }
  destruct (unread (Conn c)) as [|b0 [|b1 rest]] eqn:Hu.
  - destruct (defaultConn_Read_at_end c b Hb Hu) as (c' & E & _).
    exists 0, (Some (endErr (Conn c))), c', b.
    repeat split; try lia; [exact E | discriminate].
  - destruct (defaultConn_Read_half_prefix c b Hb Hu) as (c' & E & _).
    eexists 0, _, c', _. split; [exact E|].
    repeat split; try lia; [|discriminate].
    cbn [length]. rewrite length_skipn. unfold len in *. lia.
  - pose proof (prefix_range b0 b1) as Hn.
    set (n := Z.lor (Z.shiftl (int b0) 8) (int b1)) in *.
    destruct (Z.lt_ge_cases (len b) n) as [Hsmall|Hfit].
    + destruct (defaultConn_Read_too_small c b Hb Hu Hsmall) as (c' & E & _).
      eexists 0, _, c', _. split; [exact E|].
      repeat split; try lia; [apply len_prefixed; exact Hb | discriminate].
    + destruct (Z.lt_ge_cases (len rest) n) as [Hcut|Hthere].
      * destruct (@defaultConn_Read_cut_payload c b b0 b1 rest Hb Hu)
          as (c' & E & _); [exact Hfit | exact Hcut |].
        eexists (len rest), _, c', _. split; [exact E|].
        pose proof (len_nonneg rest).
        repeat split; try lia; [|discriminate].
        rewrite length_store_front; [apply len_prefixed; exact Hb|].
        rewrite len_prefixed by exact Hb. unfold len in *. lia.
      * destruct (@defaultConn_Read_record c b b0 b1 rest Hb Hu)
          as (c' & E & U); [exact Hfit | lia |]. fold n in E, U.
        assert (Hfirst : length (firstn (Z.to_nat n) rest) = Z.to_nat n)
          by (rewrite length_firstn; unfold len in *; lia).
        eexists n, None, c', _. split; [exact E|].
        repeat split; try lia.
        -- rewrite length_app, length_skipn, Hfirst.
           rewrite len_prefixed by exact Hb. unfold len in *. lia.
        -- intros _. exists b0, b1. split; [|reflexivity].
           rewrite firstn_app, Hfirst, Nat.sub_diag.
           rewrite <- Hfirst at 1. rewrite firstn_all. cbn [firstn].
           rewrite app_nil_r, U, firstn_skipn. reflexivity.
Qed.

End ReadShape.

(** ** What [Write] puts on the wire, and sessions *)
Section Sessions.

Lemma frame_decode (p : list byte) :
  len p <= MaxPacketSize - 2 ->
  Z.lor (Z.shiftl (int (to_byte (Z.shiftr (len p) 8))) 8)
        (int (to_byte (Z.land (len p) 255))) = len p.
Proof.
  intros Hp. apply prefix_decode. pose proof (len_nonneg p).
  unfold MaxPacketSize in *. lia.
Qed.

(** [Write] on a transport that takes the bytes: one frame more on the
    wire. *)
Lemma defaultConn_Write_frame (c : defaultConn) (p : list byte) :
  net.werr (Conn c) = None -> len p <= MaxPacketSize - 2 ->
  exists c',
    defaultConn_Write c p = (len p, None, c')
    /\ concat (net.outbound (Conn c'))
       = concat (net.outbound (Conn c)) ++ frame p
    /\ net.werr (Conn c') = None
    /\ isClient c' = isClient c.
Proof.
  intros Hw Hlen. unfold defaultConn_Write, net.Write.
  destruct (Z.gtb_spec (len p) (MaxPacketSize - 2)); [lia|].
  rewrite Hw. cbn. eexists. split; [reflexivity|]. cbn.
  rewrite <- app_assoc, concat_app. cbn. rewrite app_nil_r. auto.
Qed.

(** [Read] on a stream that starts with a frame: the payload comes back
    and the stream is left at the next frame. *)
Lemma defaultConn_Read_frame (c : defaultConn) (b p more : list byte) :
  unread (Conn c) = frame p ++ more ->
  len p <= MaxPacketSize - 2 -> 2 <= len b -> len p <= len b ->
  exists c' b',
    defaultConn_Read c b = Ret (len p, None, c', b')
    /\ firstn (length p) b' = p
    /\ length b' = length b
    /\ unread (Conn c') = more
    /\ isClient c' = isClient c.
Proof.
  intros Hu Hmax Hb Hfit. pose proof (frame_decode p Hmax) as Hn.
  pose proof (len_nonneg more).
  destruct (@defaultConn_Read_record c b
              (to_byte (Z.shiftr (len p) 8))
              (to_byte (Z.land (len p) 255)) (p ++ more))
    as (c' & Hread & U); try (rewrite Hn, ?len_app; lia); [exact Hb | exact Hu |].
  rewrite Hn in Hread, U. unfold len in Hread at 2 3, U.
  rewrite Nat2Z.id in Hread, U.
  rewrite firstn_app, Nat.sub_diag, firstn_all in Hread.
  cbn [firstn] in Hread. rewrite app_nil_r in Hread.
  rewrite skipn_app, skipn_all, Nat.sub_diag in U. cbn [skipn app] in U.
  eexists c', _. split; [exact Hread|].
  split; [|split; [|split; [exact U|]]].
  - rewrite firstn_app, Nat.sub_diag, firstn_all. cbn [firstn].
    apply app_nil_r.
  - rewrite length_app, length_skipn. cbn [length].
    rewrite length_skipn. unfold len in *. lia.
  - revert Hread. unfold defaultConn_Read.
    destruct (len b <? 2); [discriminate|].
    destruct (io.ReadFull (Conn c) b 0 2) as [[[[n0 e0] conn0] buf0]| |];
      cbn [bind]; try discriminate.
    destruct e0; [discriminate|].
    destruct (index buf0 0); cbn [bind]; try discriminate.
    destruct (index buf0 1); cbn [bind]; try discriminate.
    match goal with
    | |- context [if ?t then _ else _] => destruct t; [discriminate|]
    end.
    cbn [Conn with_Conn].
    match goal with
    | |- context [io.ReadFull ?r ?x ?lo ?hi] =>
        destruct (io.ReadFull r x lo hi) as [[[[n1 e1] conn1] buf1]| |]
    end; cbn [bind]; try discriminate.
    intros Hret. injection Hret as _ _ <- _. reflexivity.
Qed.

Lemma write_packets_wire (ps : list (list byte)) :
  forall c : defaultConn,
    net.werr (Conn c) = None ->
    Forall (fun p => len p <= MaxPacketSize - 2) ps ->
    exists c',
      write_packets c ps = (None, c')
      /\ concat (net.outbound (Conn c'))
         = concat (net.outbound (Conn c)) ++ concat (map frame ps)
      /\ isClient c' = isClient c.
Proof.
  induction ps as [|p ps IH]; intros c Hw Hps.
  - exists c. cbn. rewrite app_nil_r. auto.
  - inversion Hps as [|? ? Hp Hps']; subst.
    destruct (defaultConn_Write_frame c p Hw Hp) as (c1 & E & Hout & Hw1 & Hc1).
    destruct (IH c1 Hw1 Hps') as (c2 & E2 & Hout2 & Hc2).
    exists c2. cbn [write_packets]. rewrite E, E2.
    split; [reflexivity|]. split; [|congruence].
    rewrite Hout2, Hout. cbn [map concat]. rewrite <- app_assoc. reflexivity.
Qed.

Lemma read_packets_wire (size : Z) (ps : list (list byte)) :
  2 <= size ->
  forall (c : defaultConn) (more : list byte),
    unread (Conn c) = concat (map frame ps) ++ more ->
    Forall (fun p => len p <= MaxPacketSize - 2 /\ len p <= size) ps ->
    exists c',
      read_packets c size (length ps) = Ret (ps, None, c')
      /\ unread (Conn c') = more
      /\ isClient c' = isClient c.
Proof.
  intros Hsize. induction ps as [|p ps IH]; intros c more Hu Hps.
  - exists c. auto.
  - inversion Hps as [|? ? [Hp Hp'] Hps']; subst.
    cbn [map concat] in Hu. rewrite <- app_assoc in Hu.
    destruct (@defaultConn_Read_frame c (make size) p _ Hu Hp)
      as (c1 & b' & E & Hfirst & Hlen & U & Hc1);
      try (rewrite len_make; lia).
    destruct (IH c1 more U Hps') as (c2 & E2 & U2 & Hc2).
    exists c2. cbn [read_packets length]. rewrite E. cbn [bind].
    rewrite slice_prefix.
    + unfold len at 1. rewrite Nat2Z.id, Hfirst. cbn [bind].
      rewrite E2. cbn [bind]. split; [reflexivity|]. split; [exact U2|].
      congruence.
    + pose proof (len_nonneg p). split; [lia|].
      unfold len at 2. rewrite Hlen. fold (len (make size)).
      rewrite len_make; lia.
Qed.

End Sessions.

(** ** Reading and writing use different halves of the connection *)
Section TwoHalves.

Lemma with_write_side_self (c : net.Conn) : with_write_side c c = c.
Proof. destruct c. reflexivity. Qed.

Lemma net_Read_write_side (c s : net.Conn) (k : Z) :
  io.Read (with_write_side c s) k =
    let '(d, e, c') := io.Read c k in (d, e, with_write_side c' s).
Proof.
  unfold io.Read, net.Conn_Reader, net.Read. cbn [with_write_side net.inbound].
  destruct (net.recv (net.inbound c) k) as [[d segs]|]; reflexivity.
Qed.

Lemma ReadAtLeast_loop_write_side (s : net.Conn) (lenbuf min : Z) :
  forall (fuel : nat) (c : net.Conn) (got : list byte) (err : option error),
    io.ReadAtLeast_loop fuel (with_write_side c s) lenbuf min got err =
      '(d, e, c') <- io.ReadAtLeast_loop fuel c lenbuf min got err ;;
      Ret (d, e, with_write_side c' s).
Proof.
  induction fuel as [|fuel IH]; intros c got err.
  - cbn. destruct err; [reflexivity|].
    destruct (len got <? min); reflexivity.
  - cbn [io.ReadAtLeast_loop]. destruct err; [reflexivity|].
    destruct (len got <? min); [|reflexivity].
    rewrite net_Read_write_side.
    destruct (io.Read c (lenbuf - len got)) as [[d e] c'].
    apply IH.
Qed.

Lemma ReadFull_write_side (c s : net.Conn) (buf : list byte) (lo hi : Z) :
  io.ReadFull (with_write_side c s) buf lo hi =
    '(n, e, c', buf') <- io.ReadFull c buf lo hi ;;
    Ret (n, e, with_write_side c' s, buf').
Proof.
  unfold io.ReadFull, io.ReadFull_bytes, io.ReadAtLeast.
  destruct (slice buf lo hi); cbn [bind]; try reflexivity.
  destruct (hi - lo <? hi - lo); [reflexivity|].
  rewrite ReadAtLeast_loop_write_side.
  destruct (io.ReadAtLeast_loop (Z.to_nat (hi - lo)) c (hi - lo) (hi - lo)
              [] None) as [[[d e] c']| |]; cbn [bind]; try reflexivity.
  destruct (len d >=? hi - lo); [reflexivity|].
  destruct ((len d >? 0) && is_EOF e); reflexivity.
Qed.

(** [Read] does not look at the write side and hands it on as it is. *)
Lemma defaultConn_Read_write_side (c : defaultConn) (s : net.Conn)
    (b : list byte) :
  defaultConn_Read (with_Conn c (with_write_side (Conn c) s)) b =
    '(n, e, c', b') <- defaultConn_Read c b ;;
    Ret (n, e, with_Conn c' (with_write_side (Conn c') s), b').
Proof.
  unfold defaultConn_Read.
  destruct (len b <? 2); [reflexivity|].
  cbn [Conn with_Conn]. rewrite ReadFull_write_side.
  destruct (io.ReadFull (Conn c) b 0 2) as [[[[n0 e0] conn0] buf0]| |];
    cbn [bind]; try reflexivity.
  destruct e0; [reflexivity|].
  destruct (index buf0 0) as [x0| |]; cbn [bind]; try reflexivity.
  destruct (index buf0 1) as [x1| |]; cbn [bind]; try reflexivity.
  destruct (len buf0 <? Z.lor (Z.shiftl (int x0) 8) (int x1));
    [reflexivity|].
  cbn [Conn with_Conn]. rewrite ReadFull_write_side.
  destruct (io.ReadFull conn0 buf0 0 (Z.lor (Z.shiftl (int x0) 8) (int x1)))
    as [[[[n1 e1] conn1] buf1]| |]; reflexivity.
Qed.

(** [Write] does not look at the read side and hands it on as it is. *)
Lemma defaultConn_Write_read_side (c : defaultConn) (r : net.Conn)
    (p : list byte) :
  defaultConn_Write (with_Conn c (with_write_side r (Conn c))) p =
    let '(n, e, c') := defaultConn_Write c p in
    (n, e, with_Conn c' (with_write_side r (Conn c'))).
Proof.
  unfold defaultConn_Write, net.Write.
  destruct (len p >? MaxPacketSize - 2); [reflexivity|].
  cbn [Conn with_Conn with_write_side net.werr].
  destruct (net.werr (Conn c)); reflexivity.
Qed.

Lemma defaultConn_eta (c : defaultConn) :
  with_Conn c (with_write_side (Conn c) (Conn c)) = c.
Proof. destruct c as [conn cl]. destruct conn. reflexivity. Qed.

Lemma defaultConn_Read_keeps_write_side (c c' : defaultConn)
    (b b' : list byte) (n : Z) (e : option error) :
  defaultConn_Read c b = Ret (n, e, c', b') ->
  c' = with_Conn c' (with_write_side (Conn c') (Conn c)).
Proof.
  intros Hread.
  pose proof (defaultConn_Read_write_side c (Conn c) b) as Hws.
  rewrite defaultConn_eta, Hread in Hws. cbn [bind] in Hws.
  injection Hws as Hc. exact Hc.
Qed.

Lemma defaultConn_Write_keeps_read_side (c c' : defaultConn)
    (p : list byte) (n : Z) (e : option error) :
  defaultConn_Write c p = (n, e, c') ->
  c' = with_Conn c' (with_write_side (Conn c) (Conn c')).
Proof.
  intros Hwrite.
  pose proof (defaultConn_Write_read_side c (Conn c) p) as Hrs.
  rewrite defaultConn_eta, Hwrite in Hrs.
  injection Hrs as Hc. exact Hc.
Qed.

End TwoHalves.

Section Commute.

Lemma defaultConn_Write_isClient (c c' : defaultConn) (p : list byte)
    (n : Z) (e : option error) :
  defaultConn_Write c p = (n, e, c') -> isClient c' = isClient c.
Proof.
  unfold defaultConn_Write, net.Write.
  destruct (len p >? MaxPacketSize - 2); [intros [= _ _ <-]; reflexivity|].
  cbn [Conn with_Conn]. destruct (net.werr (Conn c));
    intros [= _ _ <-]; reflexivity.
Qed.

Lemma defaultConn_Read_isClient (c c' : defaultConn) (b b' : list byte)
    (n : Z) (e : option error) :
  defaultConn_Read c b = Ret (n, e, c', b') -> isClient c' = isClient c.
Proof.
  unfold defaultConn_Read.
  destruct (len b <? 2); [intros [= _ _ <- _]; reflexivity|].
  destruct (io.ReadFull (Conn c) b 0 2) as [[[[n0 e0] conn0] buf0]| |];
    cbn [bind]; try discriminate.
  destruct e0; [intros [= _ _ <- _]; reflexivity|].
  destruct (index buf0 0) as [x0| |]; cbn [bind]; try discriminate.
  destruct (index buf0 1) as [x1| |]; cbn [bind]; try discriminate.
  destruct (len buf0 <? Z.lor (Z.shiftl (int x0) 8) (int x1));
    [intros [= _ _ <- _]; reflexivity|].
  cbn [Conn with_Conn].
  destruct (io.ReadFull conn0 buf0 0 (Z.lor (Z.shiftl (int x0) 8) (int x1)))
    as [[[[n1 e1] conn1] buf1]| |]; cbn [bind]; try discriminate.
  intros [= _ _ <- _]. reflexivity.
Qed.

Lemma with_Conn_isClient (c c' : defaultConn) (conn : net.Conn) :
  isClient c' = isClient c -> with_Conn c' conn = with_Conn c conn.
Proof. unfold with_Conn. intros ->. reflexivity. Qed.

End Commute.

(** X10: [Read] always returns, whatever the connection and the buffer:
    it never panics on a slice or index expression.  The count it returns
    is between 0 and the length of the buffer and at most 65535, and the
    buffer keeps its length. *)
Theorem X10_Read_returns_within_bounds (c : defaultConn) (b : list byte) :
  exists n err c' b',
    defaultConn_Read c b = Ret (n, err, c', b')
    /\ 0 <= n <= len b /\ n <= 65535 /\ length b' = length b.
Proof.
  destruct (defaultConn_Read_cases c b)
    as (n & err & c' & b' & E & Hn & Hmax & Hlen & _).
  exists n, err, c', b'. auto.
Qed.

(** X11: whenever [Read] returns [n] with a nil error, it has taken from
    the stream two bytes whose big-endian value is [n] and then [n] more
    bytes, and those [n] bytes are the first [n] bytes of the buffer. *)
Theorem X11_Read_success_is_one_record (c c' : defaultConn)
    (b b' : list byte) (n : Z) :
  defaultConn_Read c b = Ret (n, None, c', b') ->
  exists p0 p1,
    unread (Conn c) = p0 :: p1 :: firstn (Z.to_nat n) b' ++ unread (Conn c')
    /\ n = Z.lor (Z.shiftl (int p0) 8) (int p1)
    /\ 0 <= n <= len b.
Proof.
  intros Hret.
  destruct (defaultConn_Read_cases c b)
    as (n1 & err & c1 & b1 & E & Hn & _ & _ & Hshape).
  rewrite Hret in E. injection E as <- <- <- <-.
  destruct (Hshape eq_refl) as (p0 & p1 & Hu & Hval).
  exists p0, p1. auto.
Qed.

Lemma X11_witness :
  exists p0 p1,
    [x00; x02; x68; x69; x00; x01; x21]
      = p0 :: p1 :: firstn (Z.to_nat 2) [x68; x69; x00] ++ [x00; x01; x21]
    /\ 2 = Z.lor (Z.shiftl (int p0) 8) (int p1)
    /\ 0 <= 2 <= len (make 3).
Proof.
  exact (@X11_Read_success_is_one_record
           (DefaultInConn
              {| net.inbound := [[x00; x02; x68]; [x69; x00; x01; x21]];
                 net.rerr := EOF; net.outbound := []; net.werr := None |})
           (DefaultInConn
              {| net.inbound := [[x00; x01; x21]];
                 net.rerr := EOF; net.outbound := []; net.werr := None |})
           (make 3) [x68; x69; x00] 2 eq_refl).
Defined.

(** X12: when the stream has ended right at a record boundary, [Read]
    into a buffer of at least 2 bytes returns 0 and the stream's final
    error as it is ([io.EOF] after an orderly close, not
    [io.ErrUnexpectedEOF]) and leaves the buffer untouched. *)
Theorem X12_Read_at_end_of_stream (c : defaultConn) (b : list byte) :
  2 <= len b -> unread (Conn c) = [] ->
  exists c',
    defaultConn_Read c b = Ret (0, Some (endErr (Conn c)), c', b)
    /\ unread (Conn c') = [].
Proof. apply defaultConn_Read_at_end. Qed.

Lemma X12_witness :
  exists c',
    defaultConn_Read (DefaultInConn fresh) [x07; x07; x07]
      = Ret (0, Some EOF, c', [x07; x07; x07])
    /\ unread (Conn c') = [].
Proof.
  exact (@X12_Read_at_end_of_stream (DefaultInConn fresh) [x07; x07; x07]
           ltac:(vm_compute; discriminate) eq_refl).
Defined.

(** X13: when the stream ends inside the payload of a record that would
    fit the buffer, [Read] returns the number of payload bytes that did
    arrive, not 0, together with the error of the short read
    ([io.ErrUnexpectedEOF] when at least one byte arrived and the stream
    ended with [io.EOF]); those bytes are at the front of the buffer. *)
Theorem X13_Read_of_cut_record (c : defaultConn) (b : list byte)
    (b0 b1 : byte) (rest : list byte) :
  2 <= len b -> unread (Conn c) = b0 :: b1 :: rest ->
  Z.lor (Z.shiftl (int b0) 8) (int b1) <= len b ->
  len rest < Z.lor (Z.shiftl (int b0) 8) (int b1) ->
  exists c',
    defaultConn_Read c b =
      Ret (len rest, Some (short_err (endErr (Conn c)) rest), c',
           rest ++ skipn (length rest) (b0 :: b1 :: skipn 2 b))
    /\ unread (Conn c') = [].
Proof. intros Hb Hu Hfit Hcut. exact (defaultConn_Read_cut_payload c b Hb Hu Hfit Hcut). Qed.

Lemma X13_witness :
  exists c',
    defaultConn_Read
      (DefaultInConn
         {| net.inbound := [[x00; x05; x68]; [x65]];
            net.rerr := EOF; net.outbound := []; net.werr := None |})
      (make 8)
    = Ret (2, Some ErrUnexpectedEOF, c',
           [x68; x65; x00; x00; x00; x00; x00; x00])
    /\ unread (Conn c') = [].
Proof.
  exact (@X13_Read_of_cut_record
           (DefaultInConn
              {| net.inbound := [[x00; x05; x68]; [x65]];
                 net.rerr := EOF; net.outbound := []; net.werr := None |})
           (make 8) x00 x05 [x68; x65]
           ltac:(vm_compute; discriminate) eq_refl
           ltac:(vm_compute; discriminate) ltac:(vm_compute; reflexivity)).
Defined.

(** X14: when a buffer of at least 2 bytes is smaller than the record
    announced, [Read] fails with [io.ErrShortBuffer] after it has taken
    the two prefix bytes from the stream and written them to [b[:2]]; the
    payload is still on the stream, so the next [Read] starts inside this
    record. *)
Theorem X14_short_buffer_leaves_payload_on_stream (c : defaultConn)
    (b : list byte) (b0 b1 : byte) (rest : list byte) :
  2 <= len b -> unread (Conn c) = b0 :: b1 :: rest ->
  len b < Z.lor (Z.shiftl (int b0) 8) (int b1) ->
  exists c',
    defaultConn_Read c b =
      Ret (0, Some ErrShortBuffer, c', b0 :: b1 :: skipn 2 b)
    /\ unread (Conn c') = rest.
Proof. apply defaultConn_Read_too_small. Qed.

Lemma X14_witness :
  exists c',
    defaultConn_Read
      (DefaultInConn
         {| net.inbound := [[x00; x04; x68; x65; x6c; x70]];
            net.rerr := EOF; net.outbound := []; net.werr := None |})
      [x2e; x2e; x2e]
    = Ret (0, Some ErrShortBuffer, c', [x00; x04; x2e])
    /\ unread (Conn c') = [x68; x65; x6c; x70].
Proof.
  exact (@X14_short_buffer_leaves_payload_on_stream
           (DefaultInConn
              {| net.inbound := [[x00; x04; x68; x65; x6c; x70]];
                 net.rerr := EOF; net.outbound := []; net.werr := None |})
           [x2e; x2e; x2e] x00 x04 [x68; x65; x6c; x70]
           ltac:(vm_compute; discriminate) eq_refl
           ltac:(vm_compute; reflexivity)).
Defined.

(** X15: on a transport that takes the bytes, [Write] of a payload of at
    most 65533 bytes returns the length of the payload (the prefix is not
    counted) and adds to the wire exactly two bytes, whose big-endian
    value is that length, followed by the payload. *)
Theorem X15_Write_puts_one_frame_on_the_wire (c : defaultConn)
    (p : list byte) :
  net.werr (Conn c) = None -> len p <= MaxPacketSize - 2 ->
  exists c' hi lo,
    defaultConn_Write c p = (len p, None, c')
    /\ concat (net.outbound (Conn c'))
       = concat (net.outbound (Conn c)) ++ hi :: lo :: p
    /\ int hi * 256 + int lo = len p.
Proof.
  intros Hw Hp.
  destruct (defaultConn_Write_frame c p Hw Hp) as (c' & E & Hout & _).
  exists c', (to_byte (Z.shiftr (len p) 8)), (to_byte (Z.land (len p) 255)).
  split; [exact E|]. split; [exact Hout|].
  rewrite <- be16_value by (pose proof (int_range (to_byte (Z.land (len p) 255))); lia).
  apply frame_decode. exact Hp.
Qed.

Lemma X15_witness :
  exists c' hi lo,
    defaultConn_Write (DefaultOutConn fresh) (make 300) = (300, None, c')
    /\ concat (net.outbound (Conn c')) = [] ++ hi :: lo :: make 300
    /\ int hi * 256 + int lo = 300.
Proof.
  exact (@X15_Write_puts_one_frame_on_the_wire (DefaultOutConn fresh)
           (make 300) eq_refl ltac:(vm_compute; discriminate)).
Defined.

(** ** Handshake and whole sessions *)
Section HandshakeFacts.

(** The client side on a transport that takes the bytes: one write of
    the address, whatever bytes it holds. *)
Lemma defaultConn_Handshake_client (w : net.Conn) (a : SocksAddr) :
  net.werr w = None ->
  exists c1,
    defaultConn_Handshake (DefaultOutConn w) (net.Socks a)
      = Ret (net.Socks a, None, c1)
    /\ net.outbound (Conn c1) = net.outbound w ++ [a]
    /\ net.werr (Conn c1) = None
    /\ isClient c1 = true.
Proof.
  intros Hw. unfold defaultConn_Handshake, net.Write.
  cbn [isClient DefaultOutConn Conn]. rewrite Hw.
  eexists. split; [reflexivity|]. cbn. auto.
Qed.

(** The server side on a stream that starts with a complete address the
    parser has room for. *)
Lemma defaultConn_Handshake_server (rd : net.Conn) (hint : net.Addr)
    (a : SocksAddr) (more : list byte) :
  is_addr a -> len a <= maxAddrLen ->
  unread rd = a ++ more ->
  exists s1,
    defaultConn_Handshake (DefaultInConn rd) hint
      = Ret (net.Socks a, None, s1)
    /\ unread (Conn s1) = more
    /\ isClient s1 = false.
Proof.
  intros Ha Hfit Hu. unfold defaultConn_Handshake.
  cbn [isClient DefaultInConn Conn].
  destruct (@ReadSocksAddr_roundtrip net.Conn _ _ rd a more Ha Hfit Hu)
    as (rd' & -> & U & _).
  eexists. split; [reflexivity|]. cbn. auto.
Qed.

End HandshakeFacts.

(** X16: for every complete address of at most 257 bytes, the client-side
    [Handshake] on a transport that takes the bytes makes exactly one
    write, of the address, and returns it; the server-side [Handshake] at
    the other end, whatever hint it is given and however the bytes are
    segmented, returns the same address and leaves the stream right
    behind it. *)
Theorem X16_Handshake_round_trip (w : net.Conn) (a : SocksAddr) :
  net.werr w = None -> net.outbound w = [] ->
  is_addr a -> len a <= maxAddrLen ->
  exists c1,
    defaultConn_Handshake (DefaultOutConn w) (net.Socks a)
      = Ret (net.Socks a, None, c1)
    /\ net.outbound (Conn c1) = [a]
    /\ forall (rd : net.Conn) (hint : net.Addr) (more : list byte),
         concat (net.inbound rd) = concat (net.outbound (Conn c1)) ++ more ->
         exists s1,
           defaultConn_Handshake (DefaultInConn rd) hint
             = Ret (net.Socks a, None, s1)
           /\ unread (Conn s1) = more.
Proof.
  intros Hw Hout Ha Hfit.
  destruct (defaultConn_Handshake_client w a Hw) as (c1 & E & Hout1 & _).
  rewrite Hout in Hout1. cbn [app] in Hout1.
  exists c1. split; [exact E|]. split; [exact Hout1|].
  intros rd hint more Hrd. rewrite Hout1 in Hrd. cbn [concat] in Hrd.
  rewrite app_nil_r in Hrd.
  destruct (@defaultConn_Handshake_server rd hint a more Ha Hfit Hrd)
    as (s1 & Es & U & _).
  eauto.
Qed.

Lemma X16_witness :
  exists c1,
    defaultConn_Handshake (DefaultOutConn fresh) (net.Socks addr_foo_80)
      = Ret (net.Socks addr_foo_80, None, c1)
    /\ net.outbound (Conn c1) = [addr_foo_80]
    /\ forall (rd : net.Conn) (hint : net.Addr) (more : list byte),
         concat (net.inbound rd) = concat (net.outbound (Conn c1)) ++ more ->
         exists s1,
           defaultConn_Handshake (DefaultInConn rd) hint
             = Ret (net.Socks addr_foo_80, None, s1)
           /\ unread (Conn s1) = more.
Proof.
  exact (@X16_Handshake_round_trip fresh addr_foo_80 eq_refl eq_refl
           (ex_intro _ 5 (conj eq_refl eq_refl))
           ltac:(vm_compute; discriminate)).
Defined.

(** X17: a [Write] followed by a [Read] on the same connection gives the
    same results, the same buffer and the same connection as the [Read]
    followed by the [Write]: neither call sees or changes what the other
    one works on. *)
Theorem X17_Read_and_Write_commute (c : defaultConn) (p b : list byte) :
  write_then_read c p b = read_then_write c p b.
Proof.
  unfold write_then_read, read_then_write.
  destruct (defaultConn_Write c p) as [[nw ew] cw] eqn:Ew.
  pose proof (defaultConn_Write_keeps_read_side _ _ Ew) as Hcw.
  pose proof (defaultConn_Write_isClient _ _ Ew) as Hclw.
  rewrite (@with_Conn_isClient c cw _ Hclw) in Hcw.
  rewrite Hcw at 1. rewrite defaultConn_Read_write_side.
  destruct (defaultConn_Read c b) as [[[[nr er] cr] b']| |] eqn:Er;
    cbn [bind]; try reflexivity.
  pose proof (defaultConn_Read_keeps_write_side _ _ Er) as Hcr.
  pose proof (defaultConn_Read_isClient _ _ Er) as Hclr.
  rewrite (@with_Conn_isClient c cr _ Hclr) in Hcr.
  replace (defaultConn_Write cr p)
    with (defaultConn_Write
            (with_Conn c (with_write_side (Conn cr) (Conn c))) p)
    by (rewrite <- Hcr; reflexivity).
  rewrite defaultConn_Write_read_side, Ew.
  rewrite (@with_Conn_isClient cw cr _ ltac:(congruence)).
  reflexivity.
Qed.

(** X18: a whole session.  The client hands over the address and writes
    any number of packets of at most 65533 bytes each; the server, reading
    the same bytes in whatever segments, gets the address from
    [Handshake], then every packet, in order and unchanged, from [Read]
    into buffers of [size] bytes (at least 2 and at least as long as every
    packet), and is left with an empty stream. *)
Theorem X18_session_delivers_address_and_packets (w : net.Conn)
    (a : SocksAddr) (ps : list (list byte)) (size : Z) :
  net.werr w = None -> net.outbound w = [] ->
  is_addr a -> len a <= maxAddrLen ->
  2 <= size ->
  Forall (fun p => len p <= MaxPacketSize - 2 /\ len p <= size) ps ->
  exists c1 c2,
    defaultConn_Handshake (DefaultOutConn w) (net.Socks a)
      = Ret (net.Socks a, None, c1)
    /\ write_packets c1 ps = (None, c2)
    /\ forall (rd : net.Conn) (hint : net.Addr),
         concat (net.inbound rd) = concat (net.outbound (Conn c2)) ->
         exists s1 s2,
           defaultConn_Handshake (DefaultInConn rd) hint
             = Ret (net.Socks a, None, s1)
           /\ read_packets s1 size (length ps) = Ret (ps, None, s2)
           /\ unread (Conn s2) = [].
Proof.
  intros Hw Hout Ha Hfit Hsize Hps.
  destruct (defaultConn_Handshake_client w a Hw) as (c1 & E & Hout1 & Hw1 & _).
  destruct (@write_packets_wire ps c1 Hw1) as (c2 & Ew & Hwire & _).
  { eapply Forall_impl; [|exact Hps]. cbn. intros p [Hp _]. exact Hp. }
  exists c1, c2. split; [exact E|]. split; [exact Ew|].
  intros rd hint Hrd.
  rewrite Hwire, Hout1, Hout in Hrd. cbn [app concat] in Hrd.
  rewrite app_nil_r in Hrd.
  destruct (@defaultConn_Handshake_server rd hint a _ Ha Hfit Hrd)
    as (s1 & Es & U & _).
  destruct (@read_packets_wire size ps Hsize s1 [])
    as (s2 & Er & U2 & _); [rewrite app_nil_r; exact U | exact Hps |].
  eauto.
Qed.

Lemma X18_witness :
  exists c1 c2,
    defaultConn_Handshake (DefaultOutConn fresh) (net.Socks addr_foo_80)
      = Ret (net.Socks addr_foo_80, None, c1)
    /\ write_packets c1 [[x68; x69]; []; [x21]] = (None, c2)
    /\ forall (rd : net.Conn) (hint : net.Addr),
         concat (net.inbound rd) = concat (net.outbound (Conn c2)) ->
         exists s1 s2,
           defaultConn_Handshake (DefaultInConn rd) hint
             = Ret (net.Socks addr_foo_80, None, s1)
           /\ read_packets s1 4 3 = Ret ([[x68; x69]; []; [x21]], None, s2)
           /\ unread (Conn s2) = [].
Proof.
  exact (@X18_session_delivers_address_and_packets fresh addr_foo_80
           [[x68; x69]; []; [x21]] 4 eq_refl eq_refl
           (ex_intro _ 5 (conj eq_refl eq_refl))
           ltac:(vm_compute; discriminate) ltac:(vm_compute; discriminate)
           ltac:(repeat constructor; vm_compute; discriminate)).
Defined.

(** ** [defaultPacketConn.ReadPacket] on any datagram *)
Section DatagramCases.

(** The first two statements of [ReadPacket] when a datagram is waiting:
    [p[:n]] is what was received, the part of the datagram that fits the
    buffer. *)
Lemma defaultPacketConn_ReadPacket_received (c : defaultPacketConn)
    (p d : list byte) (from : net.Addr) (q : list (list byte * net.Addr)) :
  net.pending (PacketConn c) = (d, from) :: q ->
  let recvd := firstn (length p) d in
  let p1 := recvd ++ skipn (length d) p in
  let c' := {| PacketConn :=
                 {| net.pending := q;
                    net.perr := net.perr (PacketConn c);
                    net.sent := net.sent (PacketConn c) |} |} in
  length p1 = length p /\
  defaultPacketConn_ReadPacket c p =
    '(target, err, _) <- ReadSocksAddr (bytes.NewReader recvd) ;;
    match err with
    | Some e => Ret (0, net.nilAddr, net.nilAddr, Some e, c', p1)
    | None =>
        src <- slice p1 (len (bytes_of target)) (len recvd) ;;
        Ret (len recvd - len (bytes_of target),
             net.Socks (bytes_of target), from, None, c', copy p1 src)
    end.
Proof.
  intros Hq recvd p1 c'.
  assert (Hp1 : length p1 = length p).
  { subst p1 recvd. rewrite length_app, length_firstn, length_skipn. lia. }
  split; [exact Hp1|].
  unfold defaultPacketConn_ReadPacket, net.ReadFrom. rewrite Hq.
  unfold copy at 1 2 3. fold recvd. fold p1.
  assert (Hn : Z.min (len p) (len d) = len recvd)
    by (subst recvd; unfold len; rewrite length_firstn; lia).
  rewrite Hn.
  rewrite slice_prefix by (subst p1; rewrite len_app; unfold len; lia).
  unfold len at 1. rewrite Nat2Z.id. subst p1.
  rewrite firstn_app, Nat.sub_diag, firstn_all. cbn [firstn bind].
  rewrite app_nil_r. reflexivity.
Qed.

(** A datagram the parser rejects: the error is returned with a count of
    0 and nil addresses; the datagram is gone from the socket and lies,
    address prefix and all, in the caller's buffer. *)
Lemma defaultPacketConn_ReadPacket_rejected (c : defaultPacketConn)
    (p d : list byte) (from : net.Addr) (q : list (list byte * net.Addr))
    (e : error) (r' : bytes.Reader) :
  net.pending (PacketConn c) = (d, from) :: q ->
  ReadSocksAddr (bytes.NewReader (firstn (length p) d))
    = Ret (None, Some e, r') ->
  exists c',
    defaultPacketConn_ReadPacket c p
      = Ret (0, net.nilAddr, net.nilAddr, Some e, c', copy p d)
    /\ net.pending (PacketConn c') = q.
Proof.
  intros Hq Hparse.
  destruct (defaultPacketConn_ReadPacket_received c p Hq) as [_ E].
  rewrite E, Hparse. cbn [bind]. eexists. split; reflexivity.
Qed.

End DatagramCases.

(** X19: when the received part of a datagram is a complete address of
    at most 257 bytes followed by a payload, [ReadPacket] returns that
    address as target, the sender as peer address and the length of the
    payload as [n]; the payload is at the front of the caller's buffer,
    which keeps its length, and the datagram is gone from the socket. *)
Theorem X19_ReadPacket_strips_the_address (c : defaultPacketConn)
    (p d : list byte) (from : net.Addr) (q : list (list byte * net.Addr))
    (a payload : list byte) :
  net.pending (PacketConn c) = (d, from) :: q ->
  firstn (length p) d = a ++ payload ->
  is_addr a -> len a <= maxAddrLen ->
  exists c' p',
    defaultPacketConn_ReadPacket c p =
      Ret (len payload, net.Socks a, from, None, c', p')
    /\ firstn (length payload) p' = payload
    /\ length p' = length p
    /\ net.pending (PacketConn c') = q.
Proof. apply defaultPacketConn_ReadPacket_strips. Qed.

Lemma X19_witness :
  exists c' p',
    defaultPacketConn_ReadPacket
      (DefaultPacketConn
         (socket_with (addr_10_0_0_1_53 ++ [x68; x65; x6c; x6c; x6f])))
      (make 9)
    = Ret (2, net.Socks addr_10_0_0_1_53, net.Peer "192.0.2.7:4000", None,
           c', p')
    /\ firstn 2 p' = [x68; x65]
    /\ length p' = 9%nat
    /\ net.pending (PacketConn c') = [].
Proof.
  exact (@X19_ReadPacket_strips_the_address
           (DefaultPacketConn
              (socket_with (addr_10_0_0_1_53 ++ [x68; x65; x6c; x6c; x6f])))
           (make 9) (addr_10_0_0_1_53 ++ [x68; x65; x6c; x6c; x6f])
           (net.Peer "192.0.2.7:4000") [] addr_10_0_0_1_53 [x68; x65]
           eq_refl eq_refl (ex_intro _ 5 (conj eq_refl eq_refl))
           ltac:(vm_compute; discriminate)).
Defined.

(** X20: whenever [ReadPacket] returns with a nil error, a datagram was
    waiting, the peer address is its sender, the target is a [SocksAddr],
    the part of the datagram that fitted the buffer is the bytes of that
    address followed by the first [n] bytes now in the buffer, [n] is
    between 0 and the length of the buffer, and the buffer has kept its
    length. *)
Theorem X20_ReadPacket_success_shape (c c' : defaultPacketConn)
    (p p' : list byte) (n : Z) (target addr : net.Addr) :
  defaultPacketConn_ReadPacket c p = Ret (n, target, addr, None, c', p') ->
  exists d q a,
    net.pending (PacketConn c) = (d, addr) :: q
    /\ net.pending (PacketConn c') = q
    /\ target = net.Socks a
    /\ firstn (length p) d = a ++ firstn (Z.to_nat n) p'
    /\ 0 <= n <= len p
    /\ length p' = length p.
Proof.
  intros Hret.
  destruct (net.pending (PacketConn c)) as [|[d from] q] eqn:Hq.
  { unfold defaultPacketConn_ReadPacket, net.ReadFrom in Hret.
    rewrite Hq in Hret. discriminate. }
  destruct (defaultPacketConn_ReadPacket_received c p Hq) as [Hp1 E].
  rewrite E in Hret. clear E.
  set (recvd := firstn (length p) d) in *.
  pose proof (ReadSocksAddr_parse_bytes (bytes.NewReader recvd)) as Hfn.
  destruct (ReadSocksAddr (bytes.NewReader recvd))
    as [[[ta err] r']| |] eqn:Eparse; cbn [bind] in Hret; try discriminate.
  destruct err as [e|]; [discriminate|].
  rewrite observe_Ret in Hfn. symmetry in Hfn.
  destruct ta as [a|]; [|apply parse_bytes_error in Hfn;
                         destruct Hfn as (x & Hx & _); discriminate].
  apply parse_bytes_address in Hfn.
  destruct Hfn as (_ & Hsplit & _ & _).
  change (unread (bytes.NewReader recvd)) with recvd in Hsplit.
  set (rest := unread r') in *.
  cbn [bytes_of] in Hret.
  assert (Hrl : len recvd = len a + len rest)
    by (rewrite Hsplit, len_app; reflexivity).
  pose proof (len_nonneg a). pose proof (len_nonneg rest).
  rewrite slice_ok in Hret;
    [| lia | rewrite len_app; pose proof (len_nonneg (skipn (length d) p)); lia].
  cbn [bind] in Hret. injection Hret as <- <- <- <- <-.
  assert (Hsrc : firstn (Z.to_nat (len recvd - len a))
                   (skipn (Z.to_nat (len a))
                      (recvd ++ skipn (length d) p)) = rest).
  { rewrite Hsplit. unfold len. rewrite Nat2Z.id, <- app_assoc.
    rewrite skipn_app, skipn_all, Nat.sub_diag. cbn [skipn app].
    replace (Z.to_nat (Z.of_nat (length (a ++ rest)) - Z.of_nat (length a)))
      with (length rest) by (rewrite length_app; lia).
    rewrite firstn_app, Nat.sub_diag, firstn_all. cbn [firstn].
    apply app_nil_r. }
  rewrite Hsrc.
  assert (Hrp : (length recvd <= length p)%nat)
    by (subst recvd; rewrite length_firstn; lia).
  assert (Hrest : (length rest <= length p)%nat)
    by (unfold len in Hrl; lia).
  exists d, q, a. repeat split; try reflexivity.
  - unfold copy. rewrite Hp1.
    rewrite (firstn_all2 (n:=length p) rest) by exact Hrest.
    replace (Z.to_nat (len recvd - len a)) with (length rest)
      by (unfold len in *; lia).
    rewrite firstn_app, Nat.sub_diag, firstn_all. cbn [firstn].
    rewrite app_nil_r. exact Hsplit.
  - lia.
  - unfold len in *. lia.
  - unfold copy. rewrite Hp1.
    rewrite (firstn_all2 (n:=length p) rest) by exact Hrest.
    rewrite length_app, length_skipn, Hp1. lia.
Qed.

Lemma X20_witness :
  exists d q a,
    [(addr_foo_80 ++ [x68; x69], net.Peer "192.0.2.7:4000")]
      = (d, net.Peer "192.0.2.7:4000") :: q
    /\ [] = q
    /\ net.Socks addr_foo_80 = net.Socks a
    /\ firstn (length (make 12)) d
       = a ++ firstn (Z.to_nat 2)
                [x68; x69; x66; x6f; x6f; x00; x50; x68; x69; x00; x00; x00]
    /\ 0 <= 2 <= len (make 12)
    /\ length [x68; x69; x66; x6f; x6f; x00; x50; x68; x69; x00; x00; x00]
       = length (make 12).
Proof.
  exact (@X20_ReadPacket_success_shape
           (DefaultPacketConn (socket_with (addr_foo_80 ++ [x68; x69])))
           (DefaultPacketConn
              {| net.pending := []; net.perr := OpError "i/o timeout";
                 net.sent := [] |})
           (make 12)
           [x68; x69; x66; x6f; x6f; x00; x50; x68; x69; x00; x00; x00]
           2 (net.Socks addr_foo_80) (net.Peer "192.0.2.7:4000") eq_refl).
Defined.

(** X21: a datagram whose first byte is none of 1, 3 and 4 makes
    [ReadPacket] return the error "error socks address" with a count of 0
    and nil target and peer addresses; the datagram is gone from the
    socket, and the buffer holds it as received, prefix included. *)
Theorem X21_ReadPacket_drops_datagram_of_unknown_type
    (c : defaultPacketConn) (p d : list byte) (from : net.Addr)
    (q : list (list byte * net.Addr)) (t : byte) (rest : list byte) :
  net.pending (PacketConn c) = (d, from) :: q ->
  firstn (length p) d = t :: rest ->
  t <> x01 -> t <> x03 -> t <> x04 ->
  exists c',
    defaultPacketConn_ReadPacket c p
      = Ret (0, net.nilAddr, net.nilAddr,
             Some (errorString "error socks address"), c', copy p d)
    /\ net.pending (PacketConn c') = q.
Proof.
  intros Hq Hrecv H1 H3 H4.
  destruct (@ReadSocksAddr_other_tag bytes.Reader _ _
              (bytes.NewReader (firstn (length p) d)) t rest)
    as (r' & Hparse & _); auto.
  exact (defaultPacketConn_ReadPacket_rejected c p Hq Hparse).
Qed.

Lemma X21_witness :
  exists c',
    defaultPacketConn_ReadPacket
      (DefaultPacketConn (socket_with [x02; x68; x69])) (make 4)
    = Ret (0, net.nilAddr, net.nilAddr,
           Some (errorString "error socks address"), c',
           [x02; x68; x69; x00])
    /\ net.pending (PacketConn c') = [].
Proof.
  exact (@X21_ReadPacket_drops_datagram_of_unknown_type
           (DefaultPacketConn (socket_with [x02; x68; x69])) (make 4)
           [x02; x68; x69] (net.Peer "192.0.2.7:4000") [] x02 [x68; x69]
           eq_refl eq_refl
           ltac:(discriminate) ltac:(discriminate) ltac:(discriminate)).
Defined.

(** X22: an empty datagram, or any datagram received into an empty
    buffer, makes [ReadPacket] return [io.EOF], the error a byte reader
    gives at its end, although the socket has not been closed; the
    datagram is gone from the socket. *)
Theorem X22_ReadPacket_of_empty_datagram_is_EOF
    (c : defaultPacketConn) (p d : list byte) (from : net.Addr)
    (q : list (list byte * net.Addr)) :
  net.pending (PacketConn c) = (d, from) :: q ->
  firstn (length p) d = [] ->
  exists c',
    defaultPacketConn_ReadPacket c p
      = Ret (0, net.nilAddr, net.nilAddr, Some EOF, c', copy p d)
    /\ net.pending (PacketConn c') = q.
Proof.
  intros Hq Hrecv.
  destruct (@ReadSocksAddr_empty bytes.Reader _ _
              (bytes.NewReader (firstn (length p) d)))
    as (r' & Hparse & _); [rewrite Hrecv; reflexivity|].
  exact (defaultPacketConn_ReadPacket_rejected c p Hq Hparse).
Qed.

Lemma X22_witness :
  exists c',
    defaultPacketConn_ReadPacket
      (DefaultPacketConn (socket_with [])) (make 4)
    = Ret (0, net.nilAddr, net.nilAddr, Some EOF, c',
           [x00; x00; x00; x00])
    /\ net.pending (PacketConn c') = [].
Proof.
  exact (@X22_ReadPacket_of_empty_datagram_is_EOF
           (DefaultPacketConn (socket_with [])) (make 4)
           [] (net.Peer "192.0.2.7:4000") [] eq_refl eq_refl).
Defined.

(** X23: [WritePacket] sends the payload as it is, to the peer address,
    and makes no use of its target argument.  So what [ReadPacket] at the
    receiving socket returns as target is the address at the front of the
    payload: when the payload is a complete address of at most 257 bytes
    followed by data, that address and the data come back. *)
Theorem X23_WritePacket_then_ReadPacket (c : defaultPacketConn)
    (a data : list byte) (target addr : net.Addr) :
  is_addr a -> len a <= maxAddrLen ->
  exists c',
    defaultPacketConn_WritePacket c (a ++ data) target addr
      = (len (a ++ data), None, c')
    /\ net.sent (PacketConn c')
       = net.sent (PacketConn c) ++ [(a ++ data, addr)]
    /\ forall (rcv : defaultPacketConn) (from : net.Addr)
              (q : list (list byte * net.Addr)) (buf : list byte),
         net.pending (PacketConn rcv) = (a ++ data, from) :: q ->
         len (a ++ data) <= len buf ->
         exists rcv' buf',
           defaultPacketConn_ReadPacket rcv buf
             = Ret (len data, net.Socks a, from, None, rcv', buf')
           /\ firstn (length data) buf' = data.
Proof.
  intros Ha Hfit. eexists. split; [reflexivity|]. split; [reflexivity|].
  intros rcv from q buf Hq Hbuf.
  destruct (@defaultPacketConn_ReadPacket_strips rcv buf (a ++ data) from q
              a data Hq) as (rcv' & buf' & E & Hfirst & _); auto.
  - apply firstn_all2. unfold len in *. lia.
  - eauto.
Qed.

Lemma X23_witness :
  exists c',
    defaultPacketConn_WritePacket
      (DefaultPacketConn (socket_with []))
      (addr_foo_80 ++ [x68; x69]) (net.Socks addr_10_0_0_1_53)
      (net.Peer "198.51.100.2:9")
      = (len (addr_foo_80 ++ [x68; x69]), None, c')
    /\ net.sent (PacketConn c')
       = [] ++ [(addr_foo_80 ++ [x68; x69], net.Peer "198.51.100.2:9")]
    /\ forall (rcv : defaultPacketConn) (from : net.Addr)
              (q : list (list byte * net.Addr)) (buf : list byte),
         net.pending (PacketConn rcv)
           = (addr_foo_80 ++ [x68; x69], from) :: q ->
         len (addr_foo_80 ++ [x68; x69]) <= len buf ->
         exists rcv' buf',
           defaultPacketConn_ReadPacket rcv buf
             = Ret (len [x68; x69], net.Socks addr_foo_80, from, None,
                    rcv', buf')
           /\ firstn (length [x68; x69]) buf' = [x68; x69].
Proof.
  exact (@X23_WritePacket_then_ReadPacket
           (DefaultPacketConn (socket_with []))
           addr_foo_80 [x68; x69] (net.Socks addr_10_0_0_1_53)
           (net.Peer "198.51.100.2:9")
           (ex_intro _ 5 (conj eq_refl eq_refl))
           ltac:(vm_compute; discriminate)).
Defined.
